(** * Offset-to-syntax utilities of the language service

    A shallow embedding of [src/services/utilities.ts]: the position
    resolvers ([getTokenAtPosition], [getNodeAtPosition]), the token
    boundary searches ([findPrecedingToken], [findNextToken]) and the
    list navigation helpers ([findContainingList], [findListItemInfo],
    [findListItemIndexContainingPosition]), followed by the properties
    stated about them. *)

From Stdlib Require Import ZArith List Bool Lia.
Import ListNotations.
Local Open Scope Z_scope.

(** ** Outcomes

    A call either returns a value or throws.  Two exceptions occur in the
    file: the [TypeError] of reading a property of [undefined], and the
    failure of a [Debug.assert]. *)

Inductive Exception : Set :=
| TypeError
| AssertionFailure.

Inductive Outcome (A : Type) : Type :=
| Return (a : A)
| Throw (e : Exception).

Arguments Return {A} a.
Arguments Throw {A} e.

Definition bind {A B : Type} (c : Outcome A) (k : A -> Outcome B) : Outcome B :=
  match c with
  | Return a => k a
  | Throw e => Throw e
  end.

Notation "x <- c ;; k" := (bind c (fun x => k))
  (at level 61, c at next level, right associativity).

(** ** Syntax kinds

    [SyntaxKind] is a numeric enum declared outside this file; the code
    only names the members below and compares kinds numerically.  The
    members are therefore parameters of the development. *)

Class SyntaxKind : Set := {
  EndOfFileToken : Z;
  Missing : Z;
  OmittedExpression : Z;
  ExpressionStatement : Z;
  SourceFile : Z;
  SyntaxList : Z;
  FirstToken : Z;
  LastToken : Z
}.

(** ** Nodes

    [pos] is the full start (leading trivia included), [start] what
    [getStart] answers (trivia excluded), [end_] the exclusive end.
    [id] stands for the identity of the object, which is what [===]
    compares.  [expression] is the property read on an
    [ExpressionStatement]; it is [None] when the object has no such
    property. *)

#[local] Unset Elimination Schemes.

Inductive Node : Type := mkNode {
  id : nat;
  kind : Z;
  pos : Z;
  start : Z;
  end_ : Z;
  children : list Node;
  expression : option Node
}.

#[local] Set Elimination Schemes.

Definition getFullStart (n : Node) : Z := pos n.
Definition getStart (n : Node) : Z := start n.
Definition getEnd (n : Node) : Z := end_ n.
Definition getChildren (n : Node) : list Node := children n.
Definition getChildCount (n : Node) : Z := Z.of_nat (length (children n)).

(** Identity comparison of two node objects. *)
Definition sameNode (a b : Node) : bool := Nat.eqb (id a) (id b).

Module ListItemInfo.
Record t : Type := mk { listItemIndex : Z; list : Node }.
End ListItemInfo.

(** Modelled from the spec: [forEach] is a helper of the compiler core that
    is not part of this file.  The containment search "scans the children
    and returns that child": the first truthy result of the callback, or
    [undefined] when there is none. *)
Fixpoint forEach {T U : Type} (array : list T) (callback : T -> option U) : option U :=
  match array with
  | [] => None
  | x :: rest =>
      match callback x with
      | Some r => Some r
      | None => forEach rest callback
      end
  end.

(** Modelled from the spec: [indexOf] is a helper of the compiler core that
    is not part of this file.  It "linearly finds the index" of the node
    "by identity comparison, not value equality"; the answer is [-1] when
    the node is absent. *)
Fixpoint indexOfFrom (i : Z) (array : list Node) (value : Node) : Z :=
  match array with
  | [] => -1
  | x :: rest => if sameNode x value then i else indexOfFrom (i + 1) rest value
  end.

Definition indexOf (array : list Node) (value : Node) : Z :=
  indexOfFrom 0 array value.

Section Utilities.

Context {K : SyntaxKind}.

(** The parent association of the tree model: [parentOf n] is what
    [n.parent] reads, [None] for [undefined]. *)
Variable parentOf : Node -> option Node.

Definition isToken (n : Node) : bool :=
  (kind n >=? FirstToken) && (kind n <=? LastToken).

Fixpoint nodeHasTokens (n : Node) : Outcome bool :=
  match n with
  | mkNode _ k _ _ _ _ e =>
      if k =? ExpressionStatement then
        match e with
        | Some ex => nodeHasTokens ex
        | None => Throw TypeError
        end
      else if (k =? EndOfFileToken) || (k =? OmittedExpression) || (k =? Missing) then
        Return false
      else
        Return (negb (k =? SyntaxList) || negb (getChildCount n =? 0))
  end.

(** *** List navigation *)

Definition findContainingList (node : Node) : Outcome (option Node) :=
  match parentOf node with
  | None => Throw TypeError
  | Some p =>
      let syntaxList :=
        forEach (getChildren p) (fun c =>
          if (kind c =? SyntaxList) && (pos c <=? pos node) && (end_ c >=? end_ node)
          then Some c else None) in
      Return syntaxList
  end.

Definition findListItemInfo (node : Node) : Outcome ListItemInfo.t :=
  syntaxList <- findContainingList node ;;
  match syntaxList with
  | None => Throw TypeError
  | Some l =>
      let children := getChildren l in
      let index := indexOf children node in
      Return (ListItemInfo.mk index l)
  end.

Fixpoint listItemLoop (i : Z) (children : list Node) (position : Z) : Z :=
  match children with
  | [] => -1
  | c :: rest =>
      if (pos c <=? position) && (end_ c >? position) then i
      else listItemLoop (i + 1) rest position
  end.

Definition findListItemIndexContainingPosition (lst : Node) (position : Z)
  : Outcome Z :=
  if kind lst =? SyntaxList then
    Return (listItemLoop 0 (getChildren lst) position)
  else Throw AssertionFailure.

(** *** Position resolvers

    One round of the inner [for] loop: the first child passing [test] is
    taken and the outer loop continues from it. *)

Definition firstChild (test : Node -> bool) (continue : Node -> Node)
  : list Node -> option Node :=
  fix loop (cs : list Node) : option Node :=
    match cs with
    | [] => None
    | child :: rest => if test child then Some (continue child) else loop rest
    end.

Fixpoint getTokenAtPosition (sourceFile : Node) (position : Z) : Node :=
  match
    firstChild
      (fun child => (getFullStart child <=? position) && (position <? getEnd child))
      (fun child => getTokenAtPosition child position)
      (children sourceFile)
  with
  | Some r => r
  | None => sourceFile
  end.

Fixpoint getNodeAtPosition (sourceFile : Node) (position : Z) : Node :=
  match
    firstChild
      (fun child => (getStart child <=? position) && (position <? getEnd child))
      (fun child => getNodeAtPosition child position)
      (children sourceFile)
  with
  | Some r => r
  | None => sourceFile
  end.

(** *** Next token *)

Section FindNextToken.

Variable previousToken : Node.

Definition findNextToken_children (find : Node -> Outcome (option Node))
  : list Node -> Outcome (option Node) :=
  fix loop (cs : list Node) : Outcome (option Node) :=
    match cs with
    | [] => Return None
    | child :: rest =>
        let shouldDiveInChildNode :=
          ((pos child <=? pos previousToken) && (end_ child >? end_ previousToken))
          || (pos child =? end_ previousToken) in
        if shouldDiveInChildNode then
          b <- nodeHasTokens child ;;
          if b then find child else loop rest
        else loop rest
    end.

Fixpoint findNextToken_find (n : Node) : Outcome (option Node) :=
  if isToken n && (pos n =? end_ previousToken) then Return (Some n)
  else findNextToken_children findNextToken_find (children n).

Definition findNextToken (parent : Node) : Outcome (option Node) :=
  findNextToken_find parent.

End FindNextToken.

(** *** Preceding token *)

Fixpoint findRightmostChildNodeWithTokens (children : list Node)
  (exclusiveStartPosition : nat) : Outcome (option Node) :=
  match exclusiveStartPosition with
  | O => Return None
  | S i =>
      match nth_error children i with
      | None => Throw TypeError
      | Some c =>
          b <- nodeHasTokens c ;;
          if b then Return (Some c)
          else findRightmostChildNodeWithTokens children i
      end
  end.

(** The right-to-left scan of [findRightmostChildNodeWithTokens] fused
    with the recursive call on its answer, so that the recursion is
    structural; [findRightmostToken_eq] below gives the function in the
    shape of the source. *)
Definition rightmostChild (continue : Node -> Outcome (option Node))
  : list Node -> Outcome (option (option Node)) :=
  fix pick (cs : list Node) : Outcome (option (option Node)) :=
    match cs with
    | [] => Return None
    | c :: rest =>
        r <- pick rest ;;
        match r with
        | Some found => Return (Some found)
        | None =>
            b <- nodeHasTokens c ;;
            if b then (t <- continue c ;; Return (Some t)) else Return None
        end
    end.

Fixpoint findRightmostToken (n : Node) : Outcome (option Node) :=
  if isToken n then Return (Some n)
  else
    r <- rightmostChild findRightmostToken (children n) ;;
    match r with
    | Some t => Return t
    | None => Return None
    end.

Section FindPrecedingToken.

Variable position : Z.

Definition findPrecedingToken_children (children : list Node)
  (find : Node -> Outcome (option Node)) (afterLoop : Outcome (option Node))
  : nat -> list Node -> Outcome (option Node) :=
  fix loop (i : nat) (rest : list Node) : Outcome (option Node) :=
    match rest with
    | [] => afterLoop
    | child :: rest' =>
        b <- nodeHasTokens child ;;
        if b then
          if position <? end_ child then
            if getStart child >=? position then
              candidate <- findRightmostChildNodeWithTokens children i ;;
              match candidate with
              | Some c => findRightmostToken c
              | None => Return None
              end
            else find child
          else loop (S i) rest'
        else loop (S i) rest'
    end.

(** The children the scan passes over: those [nodeHasTokens] rejects and
    those that end at or before the position. *)
Definition passed (a : Node) : Prop :=
  nodeHasTokens a = Return false
  \/ (nodeHasTokens a = Return true /\ end_ a <= position).

Definition findPrecedingToken_afterLoop (n : Node) : Outcome (option Node) :=
  if kind n =? SourceFile then
    if negb (Z.of_nat (length (children n)) =? 0) then
      candidate <-
        findRightmostChildNodeWithTokens (children n) (length (children n)) ;;
      match candidate with
      | Some c => findRightmostToken c
      | None => Return None
      end
    else Return None
  else Throw AssertionFailure.

Fixpoint findPrecedingToken_find (n : Node) : Outcome (option Node) :=
  if isToken n then Return (Some n)
  else
    findPrecedingToken_children (children n) findPrecedingToken_find
      (findPrecedingToken_afterLoop n) O (children n).

Definition findPrecedingToken (sourceFile : Node) : Outcome (option Node) :=
  findPrecedingToken_find sourceFile.

End FindPrecedingToken.

Definition findTokenOnLeftOfPosition (file : Node) (position : Z)
  : Outcome (option Node) :=
  let tokenAtPosition := getTokenAtPosition file position in
  if isToken tokenAtPosition && (position >? getStart tokenAtPosition)
     && (position <? getEnd tokenAtPosition)
  then Return (Some tokenAtPosition)
  else findPrecedingToken position file.

(** *** The tree model

    The nodes of a tree, the root first. *)

Fixpoint descendants (n : Node) : list Node :=
  n :: flat_map descendants (children n).

(** The tokens the boundary searches can reach: a token itself, and
    below a composite node what lies under its children that
    [nodeHasTokens] accepts. *)
Fixpoint searchable (n : Node) : list Node :=
  if isToken n then [n]
  else
    flat_map
      (fun c =>
         match nodeHasTokens c with
         | Return true => searchable c
         | _ => []
         end)
      (children n).


(** Invariants of the tree model.  Consecutive children do not overlap;
    a node encloses its children, for the full span and, [start] being
    the first content that is not trivia, for the rendered start as
    well; a token has no children and a node without children is a
    token, a placeholder or an empty list group; an
    [ExpressionStatement] has its [expression]. *)

Fixpoint sortedSiblings (cs : list Node) : bool :=
  match cs with
  | [] => true
  | a :: rest =>
      match rest with
      | [] => true
      | b :: _ => end_ a <=? pos b
      end && sortedSiblings rest
  end.

Definition spanOk (n : Node) : bool :=
  (pos n <=? start n) && (pos n <=? end_ n).

Definition encloses (n c : Node) : bool :=
  (pos n <=? pos c) && (end_ c <=? end_ n) && (start n <=? start c).

Definition isPlaceholder (n : Node) : bool :=
  (kind n =? EndOfFileToken) || (kind n =? OmittedExpression) || (kind n =? Missing).

Definition leafOk (n : Node) : bool :=
  match children n with
  | [] => isToken n || isPlaceholder n || (kind n =? SyntaxList)
  | _ :: _ => negb (isToken n)
  end.

Fixpoint typed (n : Node) : bool :=
  match n with
  | mkNode _ k _ _ _ _ e =>
      if k =? ExpressionStatement then
        match e with
        | Some ex => typed ex
        | None => false
        end
      else true
  end.

Fixpoint wellFormed (n : Node) : bool :=
  spanOk n && sortedSiblings (children n) && forallb (encloses n) (children n)
  && leafOk n && typed n && forallb wellFormed (children n).

(** Whether the span of [c] that begins at [lo c] contains [position]. *)
Definition contains (lo : Node -> Z) (position : Z) (c : Node) : bool :=
  (lo c <=? position) && (position <? end_ c).

(** The trivia-attachment invariant, node by node: the children of a node
    tile its full span without gaps, and a node without children is a
    token or is empty. *)
Fixpoint contiguous (from : Z) (cs : list Node) (to : Z) : bool :=
  match cs with
  | [] => from =? to
  | c :: rest => (pos c =? from) && contiguous (end_ c) rest to
  end.

Fixpoint gapFree (n : Node) : bool :=
  match children n with
  | [] => isToken n || (pos n =? end_ n)
  | _ :: _ => contiguous (pos n) (children n) (end_ n)
  end
  && forallb gapFree (children n).

(** A composite node that passes [nodeHasTokens] is tight when one of its
    children that pass it starts where the node's content starts and one
    ends where the node ends. *)
Definition tokenBearing (c : Node) : bool :=
  match nodeHasTokens c with
  | Return true => true
  | _ => false
  end.

Definition tightNode (n : Node) : bool :=
  isToken n || negb (tokenBearing n)
  || (existsb (fun c => tokenBearing c && (start c <=? start n)) (children n)
      && existsb (fun c => tokenBearing c && (end_ n <=? end_ c)) (children n)).

Fixpoint tight (n : Node) : bool :=
  tightNode n && forallb tight (children n).

(** Every offset of the document lies in the full span of some token. *)
Definition covered (file : Node) : Prop :=
  forall q, 0 <= q < end_ file ->
    exists t, In t (descendants file) /\ isToken t = true /\ pos t <= q < end_ t.

End Utilities.

(** ** A concrete enum and a concrete tree

    The members in the order of their declaration: the tokens first, the
    end-of-file token being the first of them, the kinds of parse tree
    nodes after the last token. *)

Module Sample.

Definition kinds : SyntaxKind := {|
  EndOfFileToken := 1;
  Missing := 101;
  OmittedExpression := 120;
  ExpressionStatement := 130;
  SourceFile := 150;
  SyntaxList := 152;
  FirstToken := 1;
  LastToken := 100
|}.

Definition NumericLiteral : Z := 6.
Definition OpenParenToken : Z := 15.
Definition CloseParenToken : Z := 16.
Definition DotToken : Z := 19.
Definition SemicolonToken : Z := 21.
Definition CommaToken : Z := 22.
Definition Identifier : Z := 59.
Definition VarKeyword : Z := 88.
Definition PropertyAccess : Z := 125.
Definition CallExpression : Z := 126.
Definition VariableStatement : Z := 129.
Definition VariableDeclaration : Z := 128.

Definition leaf (i : nat) (k p s e : Z) : Node := mkNode i k p s e [] None.
Definition node (i : nat) (k p s e : Z) (cs : list Node) : Node :=
  mkNode i k p s e cs None.

(** The document [foo.bar(1,2)]. *)
Definition foo := leaf 1 Identifier 0 0 3.
Definition dot := leaf 2 DotToken 3 3 4.
Definition bar := leaf 3 Identifier 4 4 7.
Definition access := node 4 PropertyAccess 0 0 7 [foo; dot; bar].
Definition open := leaf 5 OpenParenToken 7 7 8.
Definition one := leaf 6 NumericLiteral 8 8 9.
Definition comma := leaf 7 CommaToken 9 9 10.
Definition two := leaf 8 NumericLiteral 10 10 11.
Definition args := node 9 152 8 8 11 [one; comma; two].
Definition close := leaf 10 CloseParenToken 11 11 12.
Definition call := node 11 CallExpression 0 0 12 [access; open; args; close].
Definition statement := mkNode 12 130 0 0 12 [call] (Some call).
Definition statements := node 13 152 0 0 12 [statement].
Definition eof := leaf 14 1 12 12 12.
Definition file := node 15 150 0 0 12 [statements; eof].

(** Elements of a list are parented by the container of the list. *)
Definition parent (n : Node) : option Node :=
  match id n with
  | 1 | 2 | 3 => Some access
  | 4 | 5 | 6 | 7 | 8 | 9 | 10 => Some call
  | 11 => Some statement
  | 12 | 13 | 14 => Some file
  | _ => None
  end%nat.

(** The document [f( 1, 2)]: the blanks are the leading trivia of the
    literals that follow them. *)
Module Spaced.
Definition f := leaf 21 Identifier 0 0 1.
Definition open := leaf 22 OpenParenToken 1 1 2.
Definition one := leaf 23 NumericLiteral 2 3 4.
Definition comma := leaf 24 CommaToken 4 4 5.
Definition two := leaf 25 NumericLiteral 5 6 7.
Definition args := node 26 152 2 3 7 [one; comma; two].
Definition close := leaf 27 CloseParenToken 7 7 8.
Definition call := node 28 CallExpression 0 0 8 [f; open; args; close].
Definition statement := mkNode 29 130 0 0 8 [call] (Some call).
Definition statements := node 30 152 0 0 8 [statement].
Definition eof := leaf 31 1 8 8 8.
Definition file := node 32 150 0 0 8 [statements; eof].
End Spaced.

(** A statement [var;] whose declaration list holds one empty
    declaration, made of a missing name. *)
Module Recovery.
Definition var := leaf 41 VarKeyword 0 0 3.
Definition name := leaf 42 101 3 3 3.
Definition declaration := node 43 VariableDeclaration 3 3 3 [name].
Definition declarations := node 44 152 3 3 3 [declaration].
Definition semicolon := leaf 45 SemicolonToken 3 3 4.
Definition statement :=
  node 46 VariableStatement 0 0 4 [var; declarations; semicolon].
End Recovery.

(** Two list groups side by side under one container, the second made
    of one empty missing element. *)
Module Adjacent.
Definition a := leaf 51 Identifier 0 0 3.
Definition first := node 52 152 0 0 3 [a].
Definition missing := leaf 53 101 3 3 3.
Definition second := node 54 152 3 3 3 [missing].
Definition container := node 55 CallExpression 0 0 3 [first; second].
Definition parent (n : Node) : option Node :=
  match id n with
  | 51 | 52 | 53 | 54 => Some container
  | _ => None
  end%nat.
End Adjacent.

(** The document [foo.bar(1,2)] followed by a blank, which is the
    leading trivia of the end-of-file token: no child of the file that
    passes [nodeHasTokens] ends where the file ends. *)
Module Trailing.
Definition eof := leaf 71 1 12 13 13.
Definition file := node 72 150 0 0 13 [statements; eof].
End Trailing.

(** The statements [a] and [;], the second an expression statement whose
    expression is missing: [nodeHasTokens] rejects it although it holds
    the semicolon. *)
Module Skipped.
Definition a := leaf 81 Identifier 0 0 1.
Definition first := mkNode 82 130 0 0 1 [a] (Some a).
Definition missing := leaf 83 101 1 1 1.
Definition semicolon := leaf 84 SemicolonToken 1 1 2.
Definition second := mkNode 85 130 1 1 2 [missing; semicolon] (Some missing).
Definition statements := node 86 152 0 0 2 [first; second].
Definition eof := leaf 87 1 2 2 2.
Definition file := node 88 150 0 0 2 [statements; eof].
End Skipped.

(** Two list groups under one container with a token between them, the
    second made of one empty missing element. *)
Module Separated.
Definition a := leaf 91 Identifier 0 0 3.
Definition first := node 92 152 0 0 3 [a].
Definition paren := leaf 93 OpenParenToken 3 3 4.
Definition missing := leaf 94 101 4 4 4.
Definition second := node 95 152 4 4 4 [missing].
Definition container := node 96 CallExpression 0 0 4 [first; paren; second].
Definition parent (n : Node) : option Node :=
  match id n with
  | 91 | 92 | 93 | 94 | 95 => Some container
  | _ => None
  end%nat.
End Separated.

(** The tree of the empty document: the end-of-file token alone. *)
Module Empty.
Definition eof := leaf 61 1 0 0 0.
Definition file := node 62 150 0 0 0 [eof].
End Empty.

End Sample.


(** * Properties *)

(** ** Induction on trees *)

Section NodeInduction.

Variable P : Node -> Prop.

Hypothesis step : forall n,
  Forall P (children n) ->
  match expression n with Some e => P e | None => True end ->
  P n.

Lemma Node_ind' : forall n, P n.
Proof.
  fix IH 1. intros [i k p s e cs ex]. apply step; simpl.
  - induction cs as [|c cs IHcs]; constructor; [apply IH | exact IHcs].
  - destruct ex as [y|]; [apply IH | exact I].
Qed.

End NodeInduction.

Lemma bind_Return_inv {A B : Type} (c : Outcome A) (k : A -> Outcome B) (b : B) :
  bind c k = Return b -> exists a, c = Return a /\ k a = Return b.
Proof.
  destruct c as [a|e]; simpl; intros H; [exists a; auto | discriminate].
Qed.

Section TreeFacts.

Context {K : SyntaxKind}.

Lemma descendants_eq n :
  descendants n = n :: flat_map descendants (children n).
Proof. destruct n; reflexivity. Qed.

Lemma descendants_self n : In n (descendants n).
Proof. rewrite descendants_eq. left. reflexivity. Qed.

Lemma descendants_child n c u :
  In c (children n) -> In u (descendants c) -> In u (descendants n).
Proof.
  intros Hc Hu. rewrite descendants_eq. right.
  apply in_flat_map. exists c. split; assumption.
Qed.

Lemma descendants_inv n u :
  In u (descendants n) ->
  u = n \/ exists c, In c (children n) /\ In u (descendants c).
Proof.
  rewrite descendants_eq. intros [H | H].
  - left. symmetry. exact H.
  - right. apply in_flat_map in H. exact H.
Qed.

Lemma descendants_trans n : forall m u,
  In m (descendants n) -> In u (descendants m) -> In u (descendants n).
Proof.
  induction n as [n IHc _] using Node_ind'. intros m u Hm Hu.
  apply descendants_inv in Hm. destruct Hm as [-> | [c [Hc Hm]]].
  - exact Hu.
  - apply (descendants_child n c); [exact Hc |].
    rewrite Forall_forall in IHc. apply (IHc c Hc m u); assumption.
Qed.

Lemma wellFormed_eq n :
  wellFormed n =
  spanOk n && sortedSiblings (children n) && forallb (encloses n) (children n)
  && leafOk n && typed n && forallb wellFormed (children n).
Proof. destruct n; reflexivity. Qed.

Lemma wellFormed_inv n :
  wellFormed n = true ->
  pos n <= start n /\ pos n <= end_ n /\
  sortedSiblings (children n) = true /\
  (forall c, In c (children n) ->
     pos n <= pos c /\ end_ c <= end_ n /\ start n <= start c
     /\ wellFormed c = true) /\
  (isToken n = true -> children n = []) /\
  typed n = true.
Proof.
  rewrite wellFormed_eq. intros H.
  apply andb_prop in H as [H Hwf]. apply andb_prop in H as [H Hty].
  apply andb_prop in H as [H Hleaf]. apply andb_prop in H as [H Henc].
  apply andb_prop in H as [H Hsort]. apply andb_prop in H as [Hs He].
  apply Z.leb_le in Hs, He.
  rewrite forallb_forall in Henc, Hwf.
  repeat split; try assumption.
  - specialize (Henc c H). unfold encloses in Henc.
    apply andb_prop in Henc as [Henc _]. apply andb_prop in Henc as [Henc _].
    apply Z.leb_le. exact Henc.
  - specialize (Henc c H). unfold encloses in Henc.
    apply andb_prop in Henc as [Henc _]. apply andb_prop in Henc as [_ Henc].
    apply Z.leb_le. exact Henc.
  - specialize (Henc c H). unfold encloses in Henc.
    apply andb_prop in Henc as [_ Henc]. apply Z.leb_le. exact Henc.
  - apply Hwf. exact H.
  - intros Ht. unfold leafOk in Hleaf. destruct (children n); [reflexivity |].
    rewrite Ht in Hleaf. discriminate.
Qed.

Lemma descendants_bounds n :
  wellFormed n = true ->
  forall u, In u (descendants n) ->
    wellFormed u = true /\ pos n <= pos u /\ end_ u <= end_ n
    /\ start n <= start u.
Proof.
  induction n as [n IHc _] using Node_ind'. intros Hwf u Hu.
  apply descendants_inv in Hu. destruct Hu as [-> | [c [Hc Hu]]].
  - repeat split; [exact Hwf | lia | lia | lia].
  - destruct (wellFormed_inv n Hwf) as (_ & _ & _ & Hch & _).
    destruct (Hch c Hc) as (Hp & He & Hs & Hwc).
    rewrite Forall_forall in IHc.
    destruct (IHc c Hc Hwc u Hu) as (Hwu & Hp' & He' & Hs').
    repeat split; [exact Hwu | lia | lia | lia].
Qed.

Lemma sortedSiblings_tail a l :
  sortedSiblings (a :: l) = true -> sortedSiblings l = true.
Proof.
  simpl. intros H. apply andb_prop in H as [_ H]. exact H.
Qed.

Lemma sortedSiblings_head_le : forall l a,
  sortedSiblings (a :: l) = true ->
  (forall x, In x l -> pos x <= end_ x) ->
  forall b, In b l -> end_ a <= pos b.
Proof.
  induction l as [|b0 l IH]; intros a Hs Hspan b Hb; [destruct Hb |].
  pose proof Hs as Hs'. simpl in Hs'. apply andb_prop in Hs' as [H0 _].
  apply Z.leb_le in H0.
  destruct Hb as [<- | Hb]; [exact H0 |].
  assert (end_ b0 <= pos b).
  { apply IH; [apply (sortedSiblings_tail a); exact Hs | | exact Hb].
    intros x Hx. apply Hspan. right. exact Hx. }
  assert (pos b0 <= end_ b0) by (apply Hspan; left; reflexivity).
  lia.
Qed.

(** In a sorted sequence of siblings, whatever comes first ends before
    whatever comes later starts. *)
Lemma sortedSiblings_app_le : forall l1 l2,
  sortedSiblings (l1 ++ l2) = true ->
  (forall x, In x (l1 ++ l2) -> pos x <= end_ x) ->
  forall a b, In a l1 -> In b l2 -> end_ a <= pos b.
Proof.
  induction l1 as [|a0 l1 IH]; intros l2 Hs Hspan a b Ha Hb; [destruct Ha |].
  destruct Ha as [<- | Ha].
  - apply (sortedSiblings_head_le (l1 ++ l2)); [exact Hs | |].
    + intros x Hx. apply Hspan. right. exact Hx.
    + apply in_or_app. right. exact Hb.
  - apply (IH l2); [apply (sortedSiblings_tail a0); exact Hs | | exact Ha | exact Hb].
    intros x Hx. apply Hspan. right. exact Hx.
Qed.

Lemma children_spans n :
  wellFormed n = true ->
  forall x, In x (children n) -> pos x <= end_ x.
Proof.
  intros Hwf x Hx.
  destruct (wellFormed_inv n Hwf) as (_ & _ & _ & Hch & _).
  destruct (Hch x Hx) as (_ & _ & _ & Hwx).
  destruct (wellFormed_inv x Hwx) as (_ & H & _). exact H.
Qed.

(** The siblings to the left of a child end before it starts, and the
    siblings to its right start after it ends. *)
Lemma siblings_order n l1 c l2 :
  wellFormed n = true ->
  children n = l1 ++ c :: l2 ->
  (forall a, In a l1 -> end_ a <= pos c) /\
  (forall b, In b l2 -> end_ c <= pos b).
Proof.
  intros Hwf Heq.
  destruct (wellFormed_inv n Hwf) as (_ & _ & Hsort & _).
  pose proof (children_spans n Hwf) as Hspan.
  rewrite Heq in Hsort, Hspan. split.
  - intros a Ha.
    apply (sortedSiblings_app_le l1 (c :: l2) Hsort Hspan a c Ha).
    left. reflexivity.
  - intros b Hb.
    replace (l1 ++ c :: l2) with ((l1 ++ [c]) ++ l2) in Hsort, Hspan
      by (rewrite <- app_assoc; reflexivity).
    apply (sortedSiblings_app_le (l1 ++ [c]) l2 Hsort Hspan c b); [| exact Hb].
    apply in_or_app. right. left. reflexivity.
Qed.

End TreeFacts.

(** ** The position resolvers *)

Section Resolver.

Context {K : SyntaxKind}.

(** The two resolvers are the same descent for two notions of where a
    child begins. *)
Variable lo : Node -> Z.
Variable position : Z.
Variable resolve : Node -> Node.

#[local] Abbreviation hit := (contains lo position).

Hypothesis resolve_eq : forall n,
  resolve n =
  match firstChild hit resolve (children n) with
  | Some r => r
  | None => n
  end.

Lemma contains_true c : hit c = true <-> lo c <= position < end_ c.
Proof.
  unfold contains. rewrite andb_true_iff, Z.leb_le, Z.ltb_lt. tauto.
Qed.

Lemma contains_false c : hit c = false <-> ~ (lo c <= position < end_ c).
Proof.
  rewrite <- contains_true. destruct (hit c); split; intros H;
    try reflexivity; try discriminate; try (intros H'; discriminate).
  exfalso. apply H. reflexivity.
Qed.

Lemma firstChild_none cs :
  (forall c, In c cs -> hit c = false) ->
  firstChild hit resolve cs = None.
Proof.
  induction cs as [|c cs IH]; intros H; simpl; [reflexivity |].
  rewrite (H c) by (left; reflexivity).
  apply IH. intros x Hx. apply H. right. exact Hx.
Qed.

Lemma firstChild_hit l1 c l2 :
  (forall a, In a l1 -> hit a = false) ->
  hit c = true ->
  firstChild hit resolve (l1 ++ c :: l2) = Some (resolve c).
Proof.
  induction l1 as [|a l1 IH]; intros H Hc; simpl.
  - rewrite Hc. reflexivity.
  - rewrite (H a) by (left; reflexivity).
    apply IH; [| exact Hc]. intros x Hx. apply H. right. exact Hx.
Qed.

Lemma firstChild_inv cs r :
  firstChild hit resolve cs = Some r ->
  exists c, In c cs /\ hit c = true /\ r = resolve c.
Proof.
  induction cs as [|c cs IH]; simpl; intros H; [discriminate |].
  destruct (hit c) eqn:Hc.
  - injection H as <-. exists c. auto.
  - destruct (IH H) as (x & Hx & Hcx & Hr). exists x. auto.
Qed.

Lemma firstChild_none_inv cs :
  firstChild hit resolve cs = None ->
  forall c, In c cs -> hit c = false.
Proof.
  induction cs as [|c cs IH]; simpl; intros H x Hx; [destruct Hx |].
  destruct (hit c) eqn:Hc; [discriminate |].
  destruct Hx as [<- | Hx]; [exact Hc | apply IH; assumption].
Qed.

(** The descent stops at a node of the tree none of whose children
    contains the position. *)
Lemma resolve_stops : forall n,
  In (resolve n) (descendants n) /\
  forall c, In c (children (resolve n)) -> hit c = false.
Proof.
  induction n as [n IHc _] using Node_ind'.
  rewrite resolve_eq.
  destruct (firstChild hit resolve (children n)) as [r|] eqn:Hf.
  - apply firstChild_inv in Hf. destruct Hf as (c & Hc & _ & ->).
    rewrite Forall_forall in IHc. destruct (IHc c Hc) as [Hin Hno].
    split; [| exact Hno].
    apply (descendants_child n c); assumption.
  - split; [apply descendants_self |].
    apply firstChild_none_inv. exact Hf.
Qed.

Lemma resolve_root n :
  (forall c, In c (children n) -> ~ (lo c <= position < end_ c)) ->
  resolve n = n.
Proof.
  intros H. rewrite resolve_eq, firstChild_none; [reflexivity |].
  intros c Hc. apply contains_false. apply H. exact Hc.
Qed.

(** The answer is the start node or a node whose span contains the
    position. *)
Lemma resolve_contains : forall n,
  resolve n = n \/ hit (resolve n) = true.
Proof.
  induction n as [n IHc _] using Node_ind'.
  rewrite resolve_eq.
  destruct (firstChild hit resolve (children n)) as [r|] eqn:Hf;
    [| left; reflexivity].
  apply firstChild_inv in Hf. destruct Hf as (c & Hc & Hhit & ->).
  rewrite Forall_forall in IHc.
  right. destruct (IHc c Hc) as [-> | H]; assumption.
Qed.

(** Resolving again from the answer stays on the answer. *)
Lemma resolve_stable n : resolve (resolve n) = resolve n.
Proof.
  destruct (resolve_stops n) as [_ Hno].
  rewrite (resolve_eq (resolve n)), firstChild_none; [reflexivity | exact Hno].
Qed.

Hypothesis lo_pos : forall n, wellFormed n = true -> pos n <= lo n.
Hypothesis lo_down : forall n u,
  wellFormed n = true -> In u (descendants n) -> lo n <= lo u.

(** In a well-formed tree the descent reaches the token whose span
    contains the position. *)
Lemma resolve_token : forall n,
  wellFormed n = true ->
  forall t, In t (descendants n) -> isToken t = true ->
    lo t <= position < end_ t ->
    resolve n = t.
Proof.
  induction n as [n IHc _] using Node_ind'. intros Hwf t Ht Htok Hp.
  apply descendants_inv in Ht. destruct Ht as [-> | [c [Hc Ht]]].
  - destruct (wellFormed_inv n Hwf) as (_ & _ & _ & _ & Hleaf & _).
    rewrite resolve_eq, (Hleaf Htok). reflexivity.
  - destruct (in_split c (children n) Hc) as (l1 & l2 & Heq).
    destruct (siblings_order n l1 c l2 Hwf Heq) as [Hleft _].
    destruct (wellFormed_inv n Hwf) as (_ & _ & _ & Hch & _).
    destruct (Hch c Hc) as (_ & _ & _ & Hwc).
    destruct (descendants_bounds c Hwc t Ht) as (Hwt & Hpt & Het & _).
    pose proof (lo_down c t Hwc Ht) as Hlo.
    pose proof (lo_pos t Hwt) as Hlt.
    rewrite resolve_eq, Heq, firstChild_hit.
    + rewrite Forall_forall in IHc. apply (IHc c Hc Hwc t Ht Htok Hp).
    + intros a Ha. apply contains_false. pose proof (Hleft a Ha).
      pose proof (lo_pos c Hwc). lia.
    + apply contains_true. lia.
Qed.

End Resolver.

Section ResolverClaims.

Context {K : SyntaxKind}.

Lemma getTokenAtPosition_eq p n :
  getTokenAtPosition n p =
  match
    firstChild (contains pos p) (fun c => getTokenAtPosition c p) (children n)
  with
  | Some r => r
  | None => n
  end.
Proof. destruct n; reflexivity. Qed.

Lemma getNodeAtPosition_eq p n :
  getNodeAtPosition n p =
  match
    firstChild (contains start p) (fun c => getNodeAtPosition c p) (children n)
  with
  | Some r => r
  | None => n
  end.
Proof. destruct n; reflexivity. Qed.

Lemma pos_down n u :
  wellFormed n = true -> In u (descendants n) -> pos n <= pos u.
Proof. intros Hwf Hu. apply (descendants_bounds n Hwf u Hu). Qed.

Lemma start_down n u :
  wellFormed n = true -> In u (descendants n) -> start n <= start u.
Proof. intros Hwf Hu. apply (descendants_bounds n Hwf u Hu). Qed.

Lemma pos_le_start n : wellFormed n = true -> pos n <= start n.
Proof. intros Hwf. apply (wellFormed_inv n Hwf). Qed.

Lemma getTokenAtPosition_token (file t : Node) (p : Z) :
  wellFormed file = true ->
  In t (descendants file) ->
  isToken t = true ->
  pos t <= p < end_ t ->
  getTokenAtPosition file p = t.
Proof.
  intros Hwf Ht Htok Hp.
  apply (resolve_token pos p (fun n => getTokenAtPosition n p)
           (getTokenAtPosition_eq p) (fun n _ => Z.le_refl (pos n)) pos_down
           file Hwf t Ht Htok Hp).
Qed.

(** C6.  In a well-formed tree, every offset in the full span
    [[t.pos, t.end)] of a token [t], leading trivia included, is resolved
    by [getTokenAtPosition] to exactly [t]. *)
Theorem getTokenAtPosition_full_span (file t : Node) (p : Z) :
  wellFormed file = true ->
  In t (descendants file) ->
  isToken t = true ->
  pos t <= p < end_ t ->
  getTokenAtPosition file p = t.
Proof.
  intros Hwf Ht Htok Hp.
  apply (resolve_token pos p (fun n => getTokenAtPosition n p)
           (getTokenAtPosition_eq p) (fun n _ => Z.le_refl (pos n)) pos_down
           file Hwf t Ht Htok Hp).
Qed.

Lemma contiguous_covers q : forall cs from to,
  contiguous from cs to = true ->
  from <= q < to ->
  exists c, In c cs /\ pos c <= q < end_ c.
Proof.
  induction cs as [|c cs IH]; simpl; intros from to H Hq.
  - apply Z.eqb_eq in H. lia.
  - apply andb_prop in H as [Hc H]. apply Z.eqb_eq in Hc.
    destruct (Z_lt_ge_dec q (end_ c)) as [Hlt | Hge].
    + exists c. split; [left; reflexivity | lia].
    + destruct (IH (end_ c) to H) as (x & Hx & Hin); [lia |].
      exists x. split; [right; exact Hx | exact Hin].
Qed.

Lemma gapFree_eq n :
  gapFree n =
  match children n with
  | [] => isToken n || (pos n =? end_ n)
  | _ :: _ => contiguous (pos n) (children n) (end_ n)
  end
  && forallb gapFree (children n).
Proof. destruct n; reflexivity. Qed.

(** In a tree without gaps every offset of a node's full span lies in the
    full span of a token below it. *)
Lemma gapFree_covers : forall n,
  gapFree n = true ->
  forall q, pos n <= q < end_ n ->
    exists t, In t (descendants n) /\ isToken t = true /\ pos t <= q < end_ t.
Proof.
  induction n as [n IHc _] using Node_ind'. intros Hg q Hq.
  rewrite gapFree_eq in Hg. apply andb_prop in Hg as [Hn Hcs].
  destruct (children n) as [|c0 cs] eqn:Hch.
  - apply orb_prop in Hn. destruct Hn as [Htok | Hz].
    + exists n. split; [apply descendants_self | auto].
    + apply Z.eqb_eq in Hz. lia.
  - destruct (contiguous_covers q (c0 :: cs) (pos n) (end_ n) Hn Hq)
      as (c & Hc & Hin).
    rewrite Forall_forall in IHc. rewrite forallb_forall in Hcs.
    destruct (IHc c Hc (Hcs c Hc) q Hin) as (t & Ht & Htok & Hspan).
    exists t. split; [| auto].
    apply (descendants_child n c); [rewrite Hch; exact Hc | exact Ht].
Qed.

Lemma gapFree_covered file :
  gapFree file = true -> pos file = 0 -> covered file.
Proof.
  intros Hg H0 q Hq. apply (gapFree_covers file Hg). lia.
Qed.

(** C3.  In a well-formed tree in which every offset of the document is
    covered by the full span of some token, [getTokenAtPosition] answers
    a token without children, never a composite node, for every offset
    from 0 up to the length of the document excluded. *)
Theorem getTokenAtPosition_returns_token (file : Node) (p : Z) :
  wellFormed file = true ->
  covered file ->
  0 <= p < end_ file ->
  isToken (getTokenAtPosition file p) = true
  /\ children (getTokenAtPosition file p) = [].
Proof.
  intros Hwf Hcov Hp.
  destruct (Hcov p Hp) as (t & Ht & Htok & Hspan).
  rewrite (getTokenAtPosition_token file t p Hwf Ht Htok Hspan).
  split; [exact Htok |].
  destruct (descendants_bounds file Hwf t Ht) as (Hwt & _).
  apply (wellFormed_inv t Hwt). exact Htok.
Qed.

(** C7.  In a well-formed tree, for a token [t] and an offset in its
    rendered span [[t.start, t.end)], [getTokenAtPosition] and
    [getNodeAtPosition] answer the same node, [t] itself; for an offset
    of the full span of [t] on which they differ, the offset lies in the
    leading trivia [[t.pos, t.start)]. *)
Theorem resolvers_agree_on_rendered_span (file t : Node) (p : Z) :
  wellFormed file = true ->
  In t (descendants file) ->
  isToken t = true ->
  (start t <= p < end_ t ->
     getTokenAtPosition file p = getNodeAtPosition file p
     /\ getNodeAtPosition file p = t)
  /\ (pos t <= p < end_ t ->
        getTokenAtPosition file p <> getNodeAtPosition file p ->
        pos t <= p < start t).
Proof.
  intros Hwf Ht Htok.
  assert (Hagree : start t <= p < end_ t ->
            getTokenAtPosition file p = t /\ getNodeAtPosition file p = t).
  { intros Hp. split.
    - apply getTokenAtPosition_token; try assumption.
      destruct (descendants_bounds file Hwf t Ht) as (Hwt & _).
      pose proof (pos_le_start t Hwt). lia.
    - apply (resolve_token start p (fun n => getNodeAtPosition n p)
               (getNodeAtPosition_eq p) pos_le_start start_down
               file Hwf t Ht Htok Hp). }
  split.
  - intros Hp. destruct (Hagree Hp) as [H1 H2]. rewrite H1, H2. auto.
  - intros Hp Hne. destruct (Z_lt_ge_dec p (start t)) as [Hlt | Hge]; [lia |].
    exfalso. apply Hne. destruct Hagree as [H1 H2]; [lia |].
    rewrite H1, H2. reflexivity.
Qed.

(** C9.  [getTokenAtPosition] always answers a node of the tree, the one
    at which no child's full span contains the offset.  When no child of
    the root matches it answers the root, which for a [SourceFile] is not
    a token; in a well-formed tree that is the case of every offset
    before the root's start, such as a negative one, and of every offset
    at or past the root's end, hence at or past the end of its last
    child. *)
Theorem getTokenAtPosition_no_match (file : Node) (p : Z) :
  In (getTokenAtPosition file p) (descendants file)
  /\ (forall c, In c (children (getTokenAtPosition file p)) ->
        ~ (pos c <= p < end_ c))
  /\ ((forall c, In c (children file) -> ~ (pos c <= p < end_ c)) ->
      getTokenAtPosition file p = file)
  /\ (wellFormed file = true -> p < pos file \/ end_ file <= p ->
      getTokenAtPosition file p = file)
  /\ (wellFormed file = true ->
      forall l c, children file = l ++ [c] -> end_ c <= p ->
      getTokenAtPosition file p = file)
  /\ (kind file = SourceFile -> ~ (FirstToken <= SourceFile <= LastToken) ->
      isToken file = false).
Proof.
  pose proof (resolve_stops pos p (fun n => getTokenAtPosition n p)
                (getTokenAtPosition_eq p) file) as [Hin Hno].
  pose proof (resolve_root pos p (fun n => getTokenAtPosition n p)
                (getTokenAtPosition_eq p) file) as Hroot.
  simpl in Hin, Hno, Hroot.
  split; [exact Hin |]. split; [| split; [exact Hroot | split; [| split]]].
  - intros c Hc. apply (contains_false pos p). apply Hno. exact Hc.
  - intros Hwf Hout. apply Hroot. intros c Hc.
    destruct (wellFormed_inv file Hwf) as (_ & _ & _ & Hch & _).
    destruct (Hch c Hc) as (H1 & H2 & _ & Hwc).
    destruct (wellFormed_inv c Hwc) as (_ & H3 & _). lia.
  - intros Hwf l c Heq Hend. apply Hroot. intros x Hx.
    destruct (siblings_order file l c [] Hwf Heq) as [Hleft _].
    pose proof (children_spans file Hwf) as Hspan.
    rewrite Heq in Hx. apply in_app_or in Hx. destruct Hx as [Hx | [<- | []]].
    + pose proof (Hleft x Hx) as Hle.
      assert (Hc : In c (children file))
        by (rewrite Heq; apply in_or_app; right; left; reflexivity).
      pose proof (Hspan c Hc). lia.
    + lia.
  - intros Hk Hnot. unfold isToken. rewrite Hk.
    destruct (SourceFile >=? FirstToken) eqn:H1;
      destruct (SourceFile <=? LastToken) eqn:H2; try reflexivity.
    exfalso. apply Hnot. apply Z.geb_le in H1. apply Z.leb_le in H2. lia.
Qed.

End ResolverClaims.

(** ** List navigation *)

Section ListNavigation.

Context {K : SyntaxKind}.

Lemma listItemLoop_spec p : forall cs i0,
  (listItemLoop i0 cs p = -1
   /\ forall c, In c cs -> ~ (pos c <= p < end_ c))
  \/ (exists l1 c l2,
        cs = l1 ++ c :: l2
        /\ (forall a, In a l1 -> ~ (pos a <= p < end_ a))
        /\ pos c <= p < end_ c
        /\ listItemLoop i0 cs p = i0 + Z.of_nat (length l1)).
Proof.
  induction cs as [|c cs IH]; intros i0.
  - left. split; [reflexivity | intros c []].
  - simpl. destruct ((pos c <=? p) && (end_ c >? p)) eqn:Hc.
    + right. exists [], c, cs. apply andb_prop in Hc as [H1 H2].
      apply Z.leb_le in H1. apply Z.gtb_lt in H2.
      split; [reflexivity |]. split; [intros a [] |].
      split; [lia | simpl; lia].
    + assert (Hno : ~ (pos c <= p < end_ c)).
      { intros [H1 H2]. apply Z.leb_le in H1. apply Z.gtb_lt in H2.
        rewrite H1, H2 in Hc. discriminate. }
      destruct (IH (i0 + 1)) as [[Hr Hall] | (l1 & x & l2 & Heq & Hl1 & Hx & Hr)].
      * left. split; [exact Hr |]. intros a [<- | Ha]; [exact Hno | apply Hall, Ha].
      * right. exists (c :: l1), x, l2. subst cs.
        repeat split; try tauto.
        -- intros a [<- | Ha]; [exact Hno | apply Hl1, Ha].
        -- rewrite Hr. simpl length. lia.
Qed.

Lemma nth_error_split (cs : list Node) i c :
  nth_error cs i = Some c ->
  exists l1 l2, cs = l1 ++ c :: l2 /\ length l1 = i.
Proof.
  revert i. induction cs as [|x cs IH]; intros [|i] H; try discriminate.
  - injection H as ->. exists [], cs. auto.
  - destruct (IH i H) as (l1 & l2 & -> & Hl). exists (x :: l1), l2.
    simpl. auto.
Qed.

(** C2, as the code has it.  On a well-formed list group
    [findListItemIndexContainingPosition] answers [i] exactly when the
    offset lies in the full span [[c_i.pos, c_i.end)] of the child of
    index [i], leading trivia included, and [-1] exactly when it lies in
    no child's full span; an offset in the leading trivia of a child thus
    yields the index of that child. *)
Theorem findListItemIndexContainingPosition_full_span (lst : Node) (p : Z) :
  kind lst = SyntaxList ->
  wellFormed lst = true ->
  (forall i c, nth_error (children lst) i = Some c ->
     (findListItemIndexContainingPosition lst p = Return (Z.of_nat i)
      <-> pos c <= p < end_ c))
  /\ (findListItemIndexContainingPosition lst p = Return (-1)
      <-> forall c, In c (children lst) -> ~ (pos c <= p < end_ c))
  /\ (forall i c, nth_error (children lst) i = Some c ->
        pos c <= p < start c -> start c <= end_ c ->
        findListItemIndexContainingPosition lst p = Return (Z.of_nat i)).
Proof.
  intros Hk Hwf. unfold findListItemIndexContainingPosition, getChildren.
  rewrite Hk, Z.eqb_refl.
  assert (Hiff : forall i c, nth_error (children lst) i = Some c ->
            (Return (listItemLoop 0 (children lst) p) = Return (Z.of_nat i)
             <-> pos c <= p < end_ c)).
  { intros i c Hi.
    destruct (listItemLoop_spec p (children lst) 0)
      as [[Hr Hall] | (l1 & x & l2 & Heq & Hl1 & Hx & Hr)].
    - rewrite Hr. split.
      + intros H. injection H as H. lia.
      + intros H. exfalso. apply (Hall c); [| exact H].
        apply (nth_error_In _ _ Hi).
    - rewrite Hr. split.
      + intros H. injection H as H.
        assert (i = length l1) by lia. subst i.
        rewrite Heq, nth_error_app2, Nat.sub_diag in Hi by lia.
        simpl in Hi. injection Hi as <-. exact Hx.
      + intros Hc. f_equal.
        destruct (Nat.lt_trichotomy i (length l1)) as [Hlt | [-> | Hgt]].
        * exfalso. rewrite Heq, nth_error_app1 in Hi by exact Hlt.
          apply (Hl1 c); [apply (nth_error_In _ _ Hi) | exact Hc].
        * lia.
        * exfalso. rewrite Heq, nth_error_app2 in Hi by lia.
          destruct (i - length l1)%nat as [|k] eqn:Hk'; [lia |].
          simpl in Hi. apply nth_error_In in Hi.
          destruct (siblings_order lst l1 x l2 Hwf Heq) as [_ Hright].
          pose proof (Hright c Hi). lia. }
  split; [exact Hiff | split].
  - destruct (listItemLoop_spec p (children lst) 0)
      as [[Hr Hall] | (l1 & x & l2 & Heq & Hl1 & Hx & Hr)].
    + rewrite Hr. split; [intros _; exact Hall | reflexivity].
    + rewrite Hr. split.
      * intros H. injection H as H. lia.
      * intros Hall. exfalso. apply (Hall x); [| exact Hx].
        rewrite Heq. apply in_or_app. right. left. reflexivity.
  - intros i c Hi Hc Hse. apply (Hiff i c Hi). lia.
Qed.

Lemma forEach_first {T : Type} (test : T -> bool) : forall cs,
  (forEach cs (fun c => if test c then Some c else None) = None
   /\ forall c, In c cs -> test c = false)
  \/ (exists l1 c l2,
        cs = l1 ++ c :: l2
        /\ (forall a, In a l1 -> test a = false)
        /\ test c = true
        /\ forEach cs (fun c => if test c then Some c else None) = Some c).
Proof.
  induction cs as [|c cs IH].
  - left. split; [reflexivity | intros c []].
  - simpl. destruct (test c) eqn:Hc.
    + right. exists [], c, cs. repeat split; auto. intros a [].
    + destruct IH as [[Hr Hall] | (l1 & x & l2 & Heq & Hl1 & Hx & Hr)].
      * left. split; [exact Hr |]. intros a [<- | Ha]; [exact Hc | apply Hall, Ha].
      * right. exists (c :: l1), x, l2. subst cs. repeat split; auto.
        intros a [<- | Ha]; [exact Hc | apply Hl1, Ha].
Qed.

Lemma covering_true (c node : Node) :
  (kind c =? SyntaxList) && (pos c <=? pos node) && (end_ c >=? end_ node) = true
  <-> kind c = SyntaxList /\ pos c <= pos node /\ end_ node <= end_ c.
Proof.
  rewrite !andb_true_iff, Z.eqb_eq, Z.leb_le, Z.geb_le. tauto.
Qed.

(** C4, as the code has it.  [findContainingList] fails exactly when the
    node has no parent, by reading a property of [undefined].  With a
    parent it always returns: the first list group among the parent's
    children whose span covers the node's, no child before it being such
    a list group, or [undefined], without any error, when the parent has
    no such child. *)
Theorem findContainingList_outcomes (parent : Node -> option Node) (node : Node) :
  (parent node = None -> findContainingList parent node = Throw TypeError)
  /\ (forall P, parent node = Some P ->
        (exists l l1 l2,
            findContainingList parent node = Return (Some l)
            /\ children P = l1 ++ l :: l2
            /\ (forall a, In a l1 ->
                  ~ (kind a = SyntaxList /\ pos a <= pos node
                     /\ end_ node <= end_ a))
            /\ In l (children P) /\ kind l = SyntaxList
            /\ pos l <= pos node /\ end_ node <= end_ l)
        \/ (findContainingList parent node = Return None
            /\ forall c, In c (children P) ->
                 ~ (kind c = SyntaxList /\ pos c <= pos node
                    /\ end_ node <= end_ c)))
  /\ ((exists e, findContainingList parent node = Throw e)
      <-> parent node = None).
Proof.
  unfold findContainingList, getChildren.
  split; [| split].
  - intros ->. reflexivity.
  - intros P ->.
    destruct (forEach_first
                (fun c => (kind c =? SyntaxList) && (pos c <=? pos node)
                          && (end_ c >=? end_ node)) (children P))
      as [[Hr Hall] | (l1 & x & l2 & Heq & Hl1 & Hx & Hr)].
    + right. split; [rewrite Hr; reflexivity |].
      intros c Hc Hcov. apply covering_true in Hcov.
      rewrite (Hall c Hc) in Hcov. discriminate.
    + left. exists x, l1, l2. rewrite Hr. apply covering_true in Hx.
      split; [reflexivity |]. split; [exact Heq |]. split.
      * intros a Ha Hcov. apply covering_true in Hcov.
        rewrite (Hl1 a Ha) in Hcov. discriminate.
      * split; [| tauto].
        rewrite Heq. apply in_or_app. right. left. reflexivity.
  - destruct (parent node) as [P|]; split.
    + intros [e He]. discriminate.
    + discriminate.
    + reflexivity.
    + intros _. exists TypeError. reflexivity.
Qed.

Lemma indexOfFrom_nth (value : Node) : forall cs i0 i,
  NoDup (map id cs) ->
  nth_error cs i = Some value ->
  indexOfFrom i0 cs value = i0 + Z.of_nat i.
Proof.
  induction cs as [|x cs IH]; intros i0 i Hnd Hi; [destruct i; discriminate |].
  simpl in Hnd. inversion Hnd as [|? ? Hnotin Hnd']; subst.
  destruct i as [|i]; simpl in Hi |- *.
  - injection Hi as ->. unfold sameNode. rewrite Nat.eqb_refl. lia.
  - unfold sameNode. destruct (Nat.eqb (id x) (id value)) eqn:Heq.
    + exfalso. apply Nat.eqb_eq in Heq. apply Hnotin. rewrite Heq.
      apply in_map. apply (nth_error_In _ _ Hi).
    + rewrite (IH (i0 + 1) i Hnd' Hi). lia.
Qed.

Lemma forEach_reaches {T : Type} (test : T -> bool) (x : T) : forall l1 l2,
  (forall a, In a l1 -> test a = true -> a = x) ->
  test x = true ->
  forEach (l1 ++ x :: l2) (fun c => if test c then Some c else None) = Some x.
Proof.
  induction l1 as [|a l1 IH]; intros l2 Hl1 Hx; simpl.
  - rewrite Hx. reflexivity.
  - destruct (test a) eqn:Ha.
    + rewrite (Hl1 a (or_introl eq_refl) Ha). reflexivity.
    + apply IH; [| exact Hx]. intros b Hb. apply Hl1. right. exact Hb.
Qed.

(** The proviso of the theorem below holds when the element is not empty,
    and when no other list group of the parent covers its span. *)
Lemma no_list_before_covers (P L c : Node) :
  wellFormed P = true ->
  In c (children L) ->
  wellFormed L = true ->
  pos c < end_ c
    \/ (forall a, In a (children P) -> kind a = SyntaxList ->
          pos a <= pos c -> end_ c <= end_ a -> a = L) ->
  forall l1 l2 a, children P = l1 ++ L :: l2 -> In a l1 ->
    kind a = SyntaxList -> pos a <= pos c -> end_ c <= end_ a -> a = L.
Proof.
  intros Hwf Hc HwL Hside l1 l2 a Heq Ha Hka Hpa Hea.
  destruct Hside as [Hwide | Honly].
  - exfalso.
    destruct (siblings_order P l1 L l2 Hwf Heq) as [Hleft _].
    destruct (wellFormed_inv L HwL) as (_ & _ & _ & HchL & _).
    destruct (HchL c Hc) as (Hpc & _).
    pose proof (Hleft a Ha). lia.
  - apply Honly; try assumption.
    rewrite Heq. apply in_or_app. left. exact Ha.
Qed.

(** C8, as the code has it.  Let [L] be a list group among the children
    of [P] in a well-formed tree, its children distinct objects, and [c]
    its child of index [i], parented by [P].  If no list group that
    stands before [L] among the children of [P] covers the span of [c],
    which is so whenever the full span of [c] is not empty, then
    [findListItemInfo] answers the pair of [L] and [i]. *)
Theorem findListItemInfo_element (parent : Node -> option Node)
    (P L c : Node) (i : nat) :
  wellFormed P = true ->
  In L (children P) ->
  kind L = SyntaxList ->
  nth_error (children L) i = Some c ->
  parent c = Some P ->
  NoDup (map id (children L)) ->
  (forall l1 l2 a, children P = l1 ++ L :: l2 -> In a l1 ->
     kind a = SyntaxList -> pos a <= pos c -> end_ c <= end_ a -> a = L) ->
  findListItemInfo parent c = Return (ListItemInfo.mk (Z.of_nat i) L).
Proof.
  intros Hwf HL Hk Hi Hpar Hnd Hside.
  destruct (wellFormed_inv P Hwf) as (_ & _ & _ & Hch & _).
  destruct (Hch L HL) as (_ & _ & _ & HwL).
  destruct (wellFormed_inv L HwL) as (_ & _ & _ & HchL & _).
  destruct (HchL c (nth_error_In _ _ Hi)) as (Hpc & Hec & _ & _).
  destruct (in_split L (children P) HL) as (l1 & l2 & Heq).
  destruct (siblings_order P l1 L l2 Hwf Heq) as [Hleft _].
  unfold findListItemInfo, findContainingList, getChildren.
  rewrite Hpar, Heq.
  rewrite (forEach_reaches
             (fun a => (kind a =? SyntaxList) && (pos a <=? pos c)
                       && (end_ a >=? end_ c)) L l1 l2).
  - simpl. unfold indexOf. rewrite (indexOfFrom_nth c (children L) 0 i Hnd Hi).
    reflexivity.
  - intros a Ha Hcov. apply covering_true in Hcov.
    destruct Hcov as (Hka & Hpa & Hea).
    apply (Hside l1 l2 a Heq Ha Hka Hpa Hea).
  - apply covering_true. repeat split; [exact Hk | lia | lia].
Qed.

End ListNavigation.

(** ** The token-bearing test *)

Section TokenBearing.

Context {K : SyntaxKind}.

Lemma nodeHasTokens_eq n :
  nodeHasTokens n =
  if kind n =? ExpressionStatement then
    match expression n with
    | Some ex => nodeHasTokens ex
    | None => Throw TypeError
    end
  else if (kind n =? EndOfFileToken) || (kind n =? OmittedExpression)
          || (kind n =? Missing) then Return false
  else Return (negb (kind n =? SyntaxList) || negb (getChildCount n =? 0)).
Proof. destruct n; reflexivity. Qed.

Lemma typed_eq n :
  typed n =
  if kind n =? ExpressionStatement then
    match expression n with
    | Some ex => typed ex
    | None => false
    end
  else true.
Proof. destruct n; reflexivity. Qed.

Lemma nodeHasTokens_typed : forall n,
  typed n = true -> exists b, nodeHasTokens n = Return b.
Proof.
  induction n as [n _ IHe] using Node_ind'. intros Ht.
  rewrite typed_eq in Ht. rewrite nodeHasTokens_eq.
  destruct (kind n =? ExpressionStatement).
  - destruct (expression n) as [ex|]; [apply IHe; exact Ht | discriminate].
  - destruct ((kind n =? EndOfFileToken) || (kind n =? OmittedExpression)
              || (kind n =? Missing)); eexists; reflexivity.
Qed.

Lemma nodeHasTokens_wellFormed n :
  wellFormed n = true -> exists b, nodeHasTokens n = Return b.
Proof.
  intros Hwf. apply nodeHasTokens_typed. apply (wellFormed_inv n Hwf).
Qed.


Lemma searchable_eq n :
  searchable n =
  if isToken n then [n]
  else
    flat_map
      (fun c =>
         match nodeHasTokens c with
         | Return true => searchable c
         | _ => []
         end)
      (children n).
Proof. destruct n; reflexivity. Qed.

Lemma searchable_inv n u :
  In u (searchable n) ->
  (isToken n = true /\ u = n)
  \/ (isToken n = false
      /\ exists c, In c (children n) /\ nodeHasTokens c = Return true
                   /\ In u (searchable c)).
Proof.
  rewrite searchable_eq. destruct (isToken n).
  - intros [<- | []]. left. auto.
  - intros H. right. split; [reflexivity |].
    apply in_flat_map in H. destruct H as (c & Hc & H). exists c.
    destruct (nodeHasTokens c) as [[|]|]; try (destruct H; fail). auto.
Qed.

Lemma searchable_self n : isToken n = true -> In n (searchable n).
Proof. intros H. rewrite searchable_eq, H. left. reflexivity. Qed.

Lemma searchable_child n c u :
  isToken n = false -> In c (children n) ->
  nodeHasTokens c = Return true -> In u (searchable c) ->
  In u (searchable n).
Proof.
  intros Hn Hc Hb Hu. rewrite searchable_eq, Hn.
  apply in_flat_map. exists c. rewrite Hb. auto.
Qed.

Lemma searchable_props : forall n u,
  In u (searchable n) ->
  In u (descendants n) /\ isToken u = true
  /\ (u = n \/ nodeHasTokens u = Return true).
Proof.
  induction n as [n IHc _] using Node_ind'. intros u Hu.
  apply searchable_inv in Hu.
  destruct Hu as [[Hn ->] | (Hn & c & Hc & Hb & Hu)].
  - repeat split; auto. apply descendants_self.
  - rewrite Forall_forall in IHc.
    destruct (IHc c Hc u Hu) as (H1 & H2 & H3).
    repeat split; try assumption.
    + apply (descendants_child n c); assumption.
    + right. destruct H3 as [-> | H3]; assumption.
Qed.

End TokenBearing.

(** ** Next token *)

Section NextToken.

Context {K : SyntaxKind}.

Variable previousToken : Node.

Lemma findNextToken_find_eq n :
  findNextToken_find previousToken n =
  if isToken n && (pos n =? end_ previousToken) then Return (Some n)
  else findNextToken_children previousToken
         (findNextToken_find previousToken) (children n).
Proof. destruct n; reflexivity. Qed.

Lemma findNextToken_children_inv find cs u :
  findNextToken_children previousToken find cs = Return (Some u) ->
  exists c, In c cs /\ nodeHasTokens c = Return true
            /\ find c = Return (Some u).
Proof.
  induction cs as [|c cs IH]; simpl; intros H; [discriminate |].
  destruct ((pos c <=? pos previousToken) && (end_ c >? end_ previousToken)
            || (pos c =? end_ previousToken)).
  - apply bind_Return_inv in H. destruct H as (b & Hb & H).
    destruct b.
    + exists c. auto.
    + destruct (IH H) as (x & Hx & H'). exists x. split; [right |]; assumption.
  - destruct (IH H) as (x & Hx & H'). exists x. split; [right |]; assumption.
Qed.

Lemma findNextToken_children_returns find cs :
  (forall c, In c cs -> exists b, nodeHasTokens c = Return b) ->
  (forall c, In c cs -> exists r, find c = Return r) ->
  exists r, findNextToken_children previousToken find cs = Return r.
Proof.
  induction cs as [|c cs IH]; simpl; intros Hb Hf; [eexists; reflexivity |].
  assert (IH' : exists r, findNextToken_children previousToken find cs = Return r).
  { apply IH; intros x Hx; [apply Hb | apply Hf]; right; exact Hx. }
  destruct ((pos c <=? pos previousToken) && (end_ c >? end_ previousToken)
            || (pos c =? end_ previousToken)); [| exact IH'].
  destruct (Hb c (or_introl eq_refl)) as [b ->]. simpl.
  destruct b; [apply Hf; left; reflexivity | exact IH'].
Qed.

(** Whatever the search answers is a token of the subtree that starts
    where the previous token ends, and it is the start node itself or a
    node accepted by [nodeHasTokens]. *)
Lemma findNextToken_find_sound : forall n u,
  findNextToken_find previousToken n = Return (Some u) ->
  In u (descendants n) /\ isToken u = true /\ pos u = end_ previousToken
  /\ (u = n \/ nodeHasTokens u = Return true).
Proof.
  induction n as [n IHc _] using Node_ind'. intros u H.
  rewrite findNextToken_find_eq in H.
  destruct (isToken n && (pos n =? end_ previousToken)) eqn:Hn.
  - injection H as <-. apply andb_prop in Hn as [Ht Hp].
    apply Z.eqb_eq in Hp. repeat split; auto. apply descendants_self.
  - apply findNextToken_children_inv in H. destruct H as (c & Hc & Hb & H).
    rewrite Forall_forall in IHc.
    destruct (IHc c Hc u H) as (Hin & Htok & Hpos & Hor).
    repeat split; try assumption.
    + apply (descendants_child n c); assumption.
    + right. destruct Hor as [-> | Hor]; assumption.
Qed.

Lemma findNextToken_find_returns : forall n,
  wellFormed n = true ->
  exists r, findNextToken_find previousToken n = Return r.
Proof.
  induction n as [n IHc _] using Node_ind'. intros Hwf.
  rewrite findNextToken_find_eq.
  destruct (isToken n && (pos n =? end_ previousToken));
    [eexists; reflexivity |].
  destruct (wellFormed_inv n Hwf) as (_ & _ & _ & Hch & _).
  rewrite Forall_forall in IHc.
  apply findNextToken_children_returns.
  - intros c Hc. apply nodeHasTokens_wellFormed. apply (Hch c Hc).
  - intros c Hc. apply (IHc c Hc). apply (Hch c Hc).
Qed.

Lemma findNextToken_children_reaches find : forall l1 c l2,
  (forall a, In a l1 ->
     ((pos a <=? pos previousToken) && (end_ a >? end_ previousToken)
      || (pos a =? end_ previousToken)) = false
     \/ nodeHasTokens a = Return false) ->
  ((pos c <=? pos previousToken) && (end_ c >? end_ previousToken)
   || (pos c =? end_ previousToken)) = true ->
  nodeHasTokens c = Return true ->
  findNextToken_children previousToken find (l1 ++ c :: l2) = find c.
Proof.
  induction l1 as [|a l1 IH]; intros c l2 Hl1 Hdive Hb; simpl.
  - rewrite Hdive, Hb. reflexivity.
  - assert (IH' : findNextToken_children previousToken find (l1 ++ c :: l2)
                  = find c).
    { apply IH; [| exact Hdive | exact Hb].
      intros x Hx. apply Hl1. right. exact Hx. }
    destruct (Hl1 a (or_introl eq_refl)) as [Ha | Ha].
    + rewrite Ha. exact IH'.
    + rewrite Ha. simpl.
      destruct ((pos a <=? pos previousToken)
                && (end_ a >? end_ previousToken)
                || (pos a =? end_ previousToken)); exact IH'.
Qed.

(** The search reaches the searchable token that starts where the
    previous token ends when no node that passes [nodeHasTokens] and
    starts there stands, among the children of one node, before that
    token or before a node that holds it. *)
Lemma findNextToken_find_complete : forall n,
  wellFormed n = true ->
  isToken previousToken = true ->
  In previousToken (descendants n) \/ end_ previousToken <= pos n ->
  forall u, In u (searchable n) ->
    pos u = end_ previousToken -> pos u < end_ u ->
    (forall m l1 c l2 a, In m (descendants n) ->
       children m = l1 ++ c :: l2 -> In u (descendants c) -> In a l1 ->
       nodeHasTokens a = Return true -> pos a <> end_ previousToken) ->
    findNextToken_find previousToken n = Return (Some u).
Proof.
  induction n as [n IHc _] using Node_ind'.
  intros Hwf Htok Hq u Hu Hpos Hwide Hne.
  rewrite findNextToken_find_eq.
  apply searchable_inv in Hu.
  destruct Hu as [[Hn ->] | (Hn & c & Hc & Hb & Hu)].
  { rewrite Hn. apply Z.eqb_eq in Hpos. rewrite Hpos. reflexivity. }
  rewrite Hn. simpl.
  destruct (wellFormed_inv n Hwf) as (_ & _ & _ & Hch & _).
  destruct (Hch c Hc) as (Hpc & _ & _ & Hwc).
  destruct (in_split c (children n) Hc) as (l1 & l2 & Heq).
  destruct (siblings_order n l1 c l2 Hwf Heq) as [Hleft Hright].
  destruct (searchable_props c u Hu) as (Hdu & _ & _).
  destruct (descendants_bounds c Hwc u Hdu) as (_ & Hpu & Heu & _).
  (* where the previous token lies with respect to [c] *)
  assert (Hqc : pos c < end_ previousToken -> In previousToken (descendants c)).
  { intros Hlt. destruct Hq as [Hq | Hq]; [| lia].
    apply descendants_inv in Hq.
    destruct Hq as [Hq | (c' & Hc' & Hq)]; [congruence |].
    destruct (Hch c' Hc') as (_ & _ & _ & Hwc').
    destruct (descendants_bounds c' Hwc' previousToken Hq) as (Hwt & Hpt & Het & _).
    destruct (wellFormed_inv previousToken Hwt) as (_ & Hspan & _).
    rewrite Heq in Hc'. apply in_app_or in Hc'.
    destruct Hc' as [Hc' | [<- | Hc']].
    - pose proof (Hleft c' Hc'). lia.
    - exact Hq.
    - pose proof (Hright c' Hc'). lia. }
  rewrite Heq, findNextToken_children_reaches.
  - rewrite Forall_forall in IHc. apply (IHc c Hc Hwc Htok); try assumption.
    + destruct (Z_lt_ge_dec (pos c) (end_ previousToken)) as [Hlt | Hge];
        [left; apply Hqc; exact Hlt | right; lia].
    + intros m k1 d k2 a Hm. apply Hne.
      apply (descendants_child n c); assumption.
  - intros a Ha.
    assert (Han : In a (children n))
      by (rewrite Heq; apply in_or_app; left; exact Ha).
    destruct (Hch a Han) as (_ & _ & _ & Hwa).
    destruct (wellFormed_inv a Hwa) as (_ & Hspan & _).
    pose proof (Hleft a Ha) as Hle.
    destruct (nodeHasTokens_wellFormed a Hwa) as [[|] Hba].
    + left.
      pose proof (Hne n l1 c l2 a (descendants_self n) Heq Hdu Ha Hba).
      apply orb_false_iff. split.
      * apply andb_false_iff. right. rewrite Z.gtb_ltb. apply Z.ltb_ge. lia.
      * apply Z.eqb_neq. assumption.
    + right. exact Hba.
  - destruct (Z_lt_ge_dec (pos c) (end_ previousToken)) as [Hlt | Hge].
    + apply orb_true_iff. left. apply andb_true_iff.
      destruct (descendants_bounds c Hwc previousToken (Hqc Hlt))
        as (_ & Hpt & _).
      split; [apply Z.leb_le; exact Hpt |].
      rewrite Z.gtb_ltb. apply Z.ltb_lt. lia.
    + apply orb_true_iff. right. apply Z.eqb_eq. lia.
  - exact Hb.
Qed.

(** The condition of [findNextToken_find_complete] holds when every node
    that passes [nodeHasTokens] and starts where the previous token ends
    has a non-empty full span. *)
Lemma nothing_empty_before : forall n u,
  wellFormed n = true ->
  pos u = end_ previousToken ->
  (forall x, In x (descendants n) -> nodeHasTokens x = Return true ->
     pos x = end_ previousToken -> pos x < end_ x) ->
  forall m l1 c l2 a, In m (descendants n) ->
    children m = l1 ++ c :: l2 -> In u (descendants c) -> In a l1 ->
    nodeHasTokens a = Return true -> pos a <> end_ previousToken.
Proof.
  intros n u Hwf Hpos Hne m l1 c l2 a Hm Heq Hu Ha Hba Hpa.
  destruct (descendants_bounds n Hwf m Hm) as (Hwm & _).
  destruct (wellFormed_inv m Hwm) as (_ & _ & _ & Hch & _).
  assert (Hc : In c (children m))
    by (rewrite Heq; apply in_or_app; right; left; reflexivity).
  assert (Han : In a (children m))
    by (rewrite Heq; apply in_or_app; left; exact Ha).
  destruct (Hch c Hc) as (_ & _ & _ & Hwc).
  destruct (descendants_bounds c Hwc u Hu) as (_ & Hpu & _).
  destruct (siblings_order m l1 c l2 Hwm Heq) as [Hleft _].
  pose proof (Hleft a Ha) as Hle.
  assert (Hda : In a (descendants n)).
  { apply (descendants_trans n m a Hm).
    apply (descendants_child m a a Han (descendants_self a)). }
  pose proof (Hne a Hda Hba Hpa). lia.
Qed.

End NextToken.

Section TokenUniqueness.

Context {K : SyntaxKind}.

(** Two non-empty tokens of a well-formed tree that have the same full
    start are the same token. *)
Lemma tokens_same_pos : forall n,
  wellFormed n = true ->
  forall u v, In u (descendants n) -> In v (descendants n) ->
    isToken u = true -> isToken v = true ->
    pos u < end_ u -> pos v < end_ v -> pos u = pos v -> u = v.
Proof.
  induction n as [n IHc _] using Node_ind'.
  intros Hwf u v Hu Hv Htu Htv Hwu Hwv Hpos.
  destruct (wellFormed_inv n Hwf) as (_ & _ & _ & Hch & Hleaf & _).
  apply descendants_inv in Hu. apply descendants_inv in Hv.
  destruct Hu as [-> | (c & Hc & Hu)].
  { destruct Hv as [-> | (d & Hd & _)]; [reflexivity |].
    rewrite (Hleaf Htu) in Hd. destruct Hd. }
  destruct Hv as [-> | (d & Hd & Hv)].
  { rewrite (Hleaf Htv) in Hc. destruct Hc. }
  destruct (Hch c Hc) as (_ & _ & _ & Hwc).
  destruct (Hch d Hd) as (_ & _ & _ & Hwd).
  destruct (descendants_bounds c Hwc u Hu) as (_ & Hpu & Heu & _).
  destruct (descendants_bounds d Hwd v Hv) as (_ & Hpv & Hev & _).
  destruct (in_split c (children n) Hc) as (l1 & l2 & Heq).
  destruct (siblings_order n l1 c l2 Hwf Heq) as [Hleft Hright].
  rewrite Heq in Hd. apply in_app_or in Hd.
  destruct Hd as [Hd | [<- | Hd]].
  - pose proof (Hleft d Hd). lia.
  - rewrite Forall_forall in IHc. apply (IHc c Hc Hwc); assumption.
  - pose proof (Hright d Hd). lia.
Qed.

End TokenUniqueness.

Section NextTokenClaim.

Context {K : SyntaxKind}.

(** C5, as the code has it.  On a well-formed bounding node
    [findNextToken] returns.  A node it answers is a token inside
    [parent] whose full start is the end of [t], the only one among the
    non-empty tokens there; the answer is absent when [parent] holds no
    such token, when [parent] ends before [t] does, and when [parent]
    ends where [t] does and holds no empty token.  When [t] is a token
    inside [parent] or ends at or before its start, the answer is the
    non-empty searchable token [u] of [parent] that starts where [t]
    ends, provided that no node that passes [nodeHasTokens] and starts
    where [t] ends stands, among the children of one node of [parent],
    before [u] or before a node that holds [u]. *)
Theorem findNextToken_sound (t parent : Node) :
  wellFormed parent = true ->
  exists r,
    findNextToken t parent = Return r
    /\ (forall u, r = Some u ->
          In u (descendants parent) /\ isToken u = true /\ pos u = end_ t
          /\ (pos u < end_ u ->
              forall v, In v (descendants parent) -> isToken v = true ->
                pos v = end_ t -> pos v < end_ v -> v = u))
    /\ ((forall u, In u (descendants parent) -> isToken u = true ->
           pos u <> end_ t) -> r = None)
    /\ (end_ parent < end_ t -> r = None)
    /\ (end_ parent <= end_ t ->
        (forall u, In u (descendants parent) -> isToken u = true ->
           pos u < end_ u) -> r = None)
    /\ (isToken t = true ->
        In t (descendants parent) \/ end_ t <= pos parent ->
        forall u, In u (searchable parent) ->
          pos u = end_ t -> pos u < end_ u ->
          (forall n l1 c l2 a, In n (descendants parent) ->
             children n = l1 ++ c :: l2 -> In u (descendants c) ->
             In a l1 -> nodeHasTokens a = Return true ->
             pos a <> end_ t) ->
          r = Some u).
Proof.
  intros Hwf. unfold findNextToken.
  destruct (findNextToken_find_returns t parent Hwf) as [r Hr].
  exists r. split; [exact Hr |].
  assert (Hsound : forall u, r = Some u ->
            In u (descendants parent) /\ isToken u = true /\ pos u = end_ t).
  { intros u ->.
    destruct (findNextToken_find_sound t parent u Hr) as (H1 & H2 & H3 & _).
    auto. }
  split; [| split; [| split; [| split]]].
  - intros u Hu. destruct (Hsound u Hu) as (H1 & H2 & H3).
    repeat split; try assumption.
    intros Hwu v Hv Htv Hpv Hwv.
    apply (tokens_same_pos parent Hwf v u); try assumption. lia.
  - intros Hnone. destruct r as [u|]; [| reflexivity].
    destruct (Hsound u eq_refl) as (H1 & H2 & H3).
    exfalso. apply (Hnone u H1 H2 H3).
  - intros Hend. destruct r as [u|]; [| reflexivity].
    destruct (Hsound u eq_refl) as (H1 & H2 & H3).
    destruct (descendants_bounds parent Hwf u H1) as (Hwu & _ & He & _).
    destruct (wellFormed_inv u Hwu) as (_ & Hspan & _). lia.
  - intros Hend Hwide. destruct r as [u|]; [| reflexivity].
    destruct (Hsound u eq_refl) as (H1 & H2 & H3).
    destruct (descendants_bounds parent Hwf u H1) as (Hwu & _ & He & _).
    pose proof (Hwide u H1 H2). lia.
  - intros Htok Hq u Hu Hpos Hwide Hne.
    pose proof (findNextToken_find_complete t parent Hwf Htok Hq u Hu
                  Hpos Hwide Hne) as Hc.
    rewrite Hc in Hr. injection Hr as <-. reflexivity.
Qed.

End NextTokenClaim.

(** ** Preceding token *)

Section RightmostToken.

Context {K : SyntaxKind}.

(** The answer of the right-to-left scan: the last child before the
    given index that [nodeHasTokens] accepts. *)
Lemma findRightmostChildNodeWithTokens_spec : forall pre post r,
  findRightmostChildNodeWithTokens (pre ++ post) (length pre) = Return r ->
  match r with
  | None => forall c, In c pre -> nodeHasTokens c = Return false
  | Some c =>
      exists l1 l2, pre = l1 ++ c :: l2 /\ nodeHasTokens c = Return true
                    /\ forall x, In x l2 -> nodeHasTokens x = Return false
  end.
Proof.
  induction pre as [|x pre IH] using rev_ind; intros post r H.
  - simpl in H. injection H as <-. intros c [].
  - rewrite length_app, Nat.add_1_r in H. simpl in H.
    rewrite <- app_assoc in H. simpl in H.
    rewrite nth_error_app2, Nat.sub_diag in H by lia. simpl in H.
    apply bind_Return_inv in H. destruct H as (b & Hb & H).
    destruct b.
    + injection H as <-. exists pre, []. repeat split; auto. intros y [].
    + specialize (IH (x :: post) r H). destruct r as [c|].
      * destruct IH as (l1 & l2 & -> & Hc & Hl2).
        exists l1, (l2 ++ [x]). rewrite <- app_assoc. simpl.
        repeat split; auto.
        intros y Hy. apply in_app_or in Hy.
        destruct Hy as [Hy | [<- | []]]; [apply Hl2, Hy | exact Hb].
      * intros c Hc. apply in_app_or in Hc.
        destruct Hc as [Hc | [<- | []]]; [apply IH, Hc | exact Hb].
Qed.

Lemma findRightmostChildNodeWithTokens_cons c : forall rest k,
  (k <= length rest)%nat ->
  findRightmostChildNodeWithTokens (c :: rest) (S k) =
  (r <- findRightmostChildNodeWithTokens rest k ;;
   match r with
   | Some x => Return (Some x)
   | None => b <- nodeHasTokens c ;; if b then Return (Some c) else Return None
   end).
Proof.
  intros rest k. induction k as [|k IH]; intros Hk.
  - simpl. destruct (nodeHasTokens c) as [[|]|]; reflexivity.
  - assert (Hlt : (k < length rest)%nat) by lia.
    apply nth_error_Some in Hlt.
    change (findRightmostChildNodeWithTokens (c :: rest) (S (S k)))
      with (match nth_error rest k with
            | None => Throw TypeError
            | Some x =>
                b <- nodeHasTokens x ;;
                if b then Return (Some x)
                else findRightmostChildNodeWithTokens (c :: rest) (S k)
            end).
    change (findRightmostChildNodeWithTokens rest (S k))
      with (match nth_error rest k with
            | None => Throw TypeError
            | Some x =>
                b <- nodeHasTokens x ;;
                if b then Return (Some x)
                else findRightmostChildNodeWithTokens rest k
            end).
    destruct (nth_error rest k) as [x|]; [| contradiction].
    destruct (nodeHasTokens x) as [[|]|]; simpl; try reflexivity.
    apply IH. lia.
Qed.

Lemma rightmostChild_eq continue : forall cs,
  rightmostChild continue cs =
  (candidate <- findRightmostChildNodeWithTokens cs (length cs) ;;
   match candidate with
   | Some c => t <- continue c ;; Return (Some t)
   | None => Return None
   end).
Proof.
  induction cs as [|c cs IH]; [reflexivity |].
  simpl length. rewrite findRightmostChildNodeWithTokens_cons by lia.
  simpl rightmostChild. fold (rightmostChild continue). rewrite IH.
  destruct (findRightmostChildNodeWithTokens cs (length cs)) as [[x|]|];
    simpl; try reflexivity.
  - destruct (continue x); reflexivity.
  - destruct (nodeHasTokens c) as [[|]|]; simpl; try reflexivity.
Qed.

(** [findRightmostToken] in the shape of the source. *)
Lemma findRightmostToken_eq n :
  findRightmostToken n =
  if isToken n then Return (Some n)
  else
    candidate <-
      findRightmostChildNodeWithTokens (getChildren n) (length (getChildren n)) ;;
    match candidate with
    | Some c => findRightmostToken c
    | None => Return None
    end.
Proof.
  unfold getChildren.
  replace (findRightmostToken n) with
    (if isToken n then Return (Some n)
     else r <- rightmostChild findRightmostToken (children n) ;;
          match r with Some t => Return t | None => Return None end)
    by (destruct n; reflexivity).
  destruct (isToken n); [reflexivity |].
  rewrite rightmostChild_eq.
  destruct (findRightmostChildNodeWithTokens (children n) (length (children n)))
    as [[c|]|]; simpl; try reflexivity.
  destruct (findRightmostToken c); reflexivity.
Qed.

End RightmostToken.

Section PrecedingToken.

Context {K : SyntaxKind}.

Lemma findRightmostToken_searchable : forall n t,
  findRightmostToken n = Return (Some t) -> In t (searchable n).
Proof.
  induction n as [n IHc _] using Node_ind'. intros t H.
  rewrite findRightmostToken_eq in H. unfold getChildren in H.
  destruct (isToken n) eqn:Hn.
  - injection H as <-. apply searchable_self. exact Hn.
  - apply bind_Return_inv in H. destruct H as ([c|] & Hcand & H);
      [| discriminate].
    rewrite <- (app_nil_r (children n)) in Hcand at 1.
    apply findRightmostChildNodeWithTokens_spec in Hcand.
    destruct Hcand as (l1 & l2 & Heq & Hb & _).
    assert (Hc : In c (children n))
      by (rewrite Heq; apply in_or_app; right; left; reflexivity).
    rewrite Forall_forall in IHc.
    apply (searchable_child n c); auto.
Qed.

Lemma searchable_bounds n u :
  wellFormed n = true -> In u (searchable n) ->
  pos n <= pos u /\ end_ u <= end_ n /\ start n <= start u
  /\ pos u <= start u.
Proof.
  intros Hwf Hu. apply searchable_props in Hu. destruct Hu as (Hu & _).
  destruct (descendants_bounds n Hwf u Hu) as (Hwu & H1 & H2 & H3).
  destruct (wellFormed_inv u Hwu) as (H4 & _). auto.
Qed.

(** Every other searchable token under [n] ends before the rightmost
    token starts. *)
Lemma findRightmostToken_last : forall n,
  wellFormed n = true ->
  forall t, findRightmostToken n = Return (Some t) ->
  forall u, In u (searchable n) -> u = t \/ end_ u <= pos t.
Proof.
  induction n as [n IHc _] using Node_ind'. intros Hwf t H u Hu.
  rewrite findRightmostToken_eq in H. unfold getChildren in H.
  apply searchable_inv in Hu.
  destruct Hu as [[Hn ->] | (Hn & x & Hx & Hbx & Hu)]; rewrite Hn in H.
  - injection H as <-. left. reflexivity.
  - apply bind_Return_inv in H. destruct H as ([c|] & Hcand & H);
      [| discriminate].
    rewrite <- (app_nil_r (children n)) in Hcand at 1.
    apply findRightmostChildNodeWithTokens_spec in Hcand.
    destruct Hcand as (l1 & l2 & Heq & Hb & Hl2).
    destruct (siblings_order n l1 c l2 Hwf Heq) as [Hleft _].
    destruct (wellFormed_inv n Hwf) as (_ & _ & _ & Hch & _).
    assert (Hc : In c (children n))
      by (rewrite Heq; apply in_or_app; right; left; reflexivity).
    destruct (Hch c Hc) as (_ & _ & _ & Hwc).
    destruct (Hch x Hx) as (_ & _ & _ & Hwx).
    pose proof (findRightmostToken_searchable c t H) as Ht.
    destruct (searchable_bounds c t Hwc Ht) as (Hpt & _).
    destruct (searchable_bounds x u Hwx Hu) as (_ & Heu & _).
    rewrite Heq in Hx. apply in_app_or in Hx.
    destruct Hx as [Hx | [<- | Hx]].
    + right. pose proof (Hleft x Hx). lia.
    + rewrite Forall_forall in IHc. apply (IHc c Hc Hwc t H u Hu).
    + rewrite (Hl2 x Hx) in Hbx. discriminate.
Qed.

Variable position : Z.

Lemma findPrecedingToken_find_eq n :
  findPrecedingToken_find position n =
  if isToken n then Return (Some n)
  else
    findPrecedingToken_children position (children n)
      (findPrecedingToken_find position)
      (findPrecedingToken_afterLoop n) O (children n).
Proof. destruct n; reflexivity. Qed.

(** How the scan of the children can end in an answer: before a child
    that ends after the position and starts at or after it, inside a
    child that strictly contains the position, or after the loop. *)
Lemma findPrecedingToken_children_inv cs find after : forall rest pre t,
  cs = pre ++ rest ->
  (forall x, In x pre -> nodeHasTokens x = Return true -> end_ x <= position) ->
  findPrecedingToken_children position cs find after (length pre) rest
    = Return (Some t) ->
  (exists l1 c l2 cand,
      cs = l1 ++ c :: l2 /\ nodeHasTokens c = Return true
      /\ position < end_ c /\ position <= start c
      /\ (forall x, In x l1 -> nodeHasTokens x = Return true ->
            end_ x <= position)
      /\ findRightmostChildNodeWithTokens cs (length l1) = Return (Some cand)
      /\ findRightmostToken cand = Return (Some t))
  \/ (exists l1 c l2,
        cs = l1 ++ c :: l2 /\ nodeHasTokens c = Return true
        /\ start c < position < end_ c
        /\ (forall x, In x l1 -> nodeHasTokens x = Return true ->
              end_ x <= position)
        /\ find c = Return (Some t))
  \/ ((forall x, In x cs -> nodeHasTokens x = Return true ->
         end_ x <= position)
      /\ after = Return (Some t)).
Proof.
  induction rest as [|c rest IH]; intros pre t Hcs Hinv H.
  - right. right. rewrite app_nil_r in Hcs. subst cs. simpl in H. auto.
  - simpl in H. apply bind_Return_inv in H. destruct H as (b & Hb & H).
    assert (Hnext :
      (nodeHasTokens c = Return true -> end_ c <= position) ->
      findPrecedingToken_children position cs find after (S (length pre)) rest
        = Return (Some t) ->
      (exists l1 c l2 cand,
          cs = l1 ++ c :: l2 /\ nodeHasTokens c = Return true
          /\ position < end_ c /\ position <= start c
          /\ (forall x, In x l1 -> nodeHasTokens x = Return true ->
                end_ x <= position)
          /\ findRightmostChildNodeWithTokens cs (length l1) = Return (Some cand)
          /\ findRightmostToken cand = Return (Some t))
      \/ (exists l1 c l2,
            cs = l1 ++ c :: l2 /\ nodeHasTokens c = Return true
            /\ start c < position < end_ c
            /\ (forall x, In x l1 -> nodeHasTokens x = Return true ->
                  end_ x <= position)
            /\ find c = Return (Some t))
      \/ ((forall x, In x cs -> nodeHasTokens x = Return true ->
             end_ x <= position)
          /\ after = Return (Some t))).
    { intros Hc H'. apply (IH (pre ++ [c]) t).
      - rewrite <- app_assoc. exact Hcs.
      - intros x Hx. apply in_app_or in Hx.
        destruct Hx as [Hx | [<- | []]]; [apply Hinv, Hx | exact Hc].
      - rewrite length_app, Nat.add_1_r. exact H'. }
    destruct b.
    + destruct (position <? end_ c) eqn:Hend.
      * apply Z.ltb_lt in Hend.
        destruct (getStart c >=? position) eqn:Hstart.
        -- apply Z.geb_le in Hstart. unfold getStart in Hstart.
           apply bind_Return_inv in H. destruct H as ([cand|] & Hcand & H);
             [| discriminate].
           left. exists pre, c, rest, cand. auto 10.
        -- right. left. exists pre, c, rest.
           assert (start c < position).
           { unfold getStart in Hstart.
             destruct (Z_lt_ge_dec (start c) position) as [Hlt | Hge];
               [exact Hlt |].
             apply Z.ge_le, Z.geb_le in Hge. rewrite Hge in Hstart.
             discriminate. }
           repeat split; auto.
      * apply Z.ltb_ge in Hend. apply Hnext; [intros _; exact Hend | exact H].
    + apply Hnext; [| exact H]. rewrite Hb. discriminate.
Qed.

(** The candidate picked by the right-to-left scan and its rightmost
    token, against the searchable tokens to the left of the index. *)
Lemma candidate_last n l1 l2 cand t :
  wellFormed n = true ->
  children n = l1 ++ l2 ->
  findRightmostChildNodeWithTokens (children n) (length l1)
    = Return (Some cand) ->
  findRightmostToken cand = Return (Some t) ->
  In cand l1 /\ nodeHasTokens cand = Return true
  /\ In t (searchable cand) /\ wellFormed cand = true
  /\ forall x u, In x l1 -> nodeHasTokens x = Return true ->
       In u (searchable x) -> u = t \/ end_ u <= pos t.
Proof.
  intros Hwf Heq Hcand Hrt. rewrite Heq in Hcand.
  apply findRightmostChildNodeWithTokens_spec in Hcand.
  destruct Hcand as (m1 & m2 & Hl1 & Hb & Hm2).
  assert (Heq' : children n = m1 ++ cand :: (m2 ++ l2))
    by (rewrite Heq, Hl1, <- app_assoc; reflexivity).
  destruct (siblings_order n m1 cand (m2 ++ l2) Hwf Heq') as [Hleft _].
  destruct (wellFormed_inv n Hwf) as (_ & _ & _ & Hch & _).
  assert (Hc : In cand (children n))
    by (rewrite Heq'; apply in_or_app; right; left; reflexivity).
  destruct (Hch cand Hc) as (_ & _ & _ & Hwc).
  pose proof (findRightmostToken_searchable cand t Hrt) as Ht.
  destruct (searchable_bounds cand t Hwc Ht) as (Hpt & _).
  split; [rewrite Hl1; apply in_or_app; right; left; reflexivity |].
  repeat split; try assumption.
  intros x u Hx Hbx Hu.
  assert (Hxn : In x (children n))
    by (rewrite Heq; apply in_or_app; left; exact Hx).
  destruct (Hch x Hxn) as (_ & _ & _ & Hwx).
  destruct (searchable_bounds x u Hwx Hu) as (_ & Heu & _).
  rewrite Hl1 in Hx. apply in_app_or in Hx.
  destruct Hx as [Hx | [<- | Hx]].
  - right. pose proof (Hleft x Hx). lia.
  - apply (findRightmostToken_last cand Hwc t Hrt u Hu).
  - rewrite (Hm2 x Hx) in Hbx. discriminate.
Qed.

(** The answer of [find] is the last searchable token that starts before
    the position. *)
Lemma findPrecedingToken_find_spec : forall n,
  wellFormed n = true ->
  (isToken n = true -> start n < position < end_ n) ->
  forall t, findPrecedingToken_find position n = Return (Some t) ->
    In t (searchable n)
    /\ (end_ t <= position \/ start t < position < end_ t)
    /\ forall u, In u (searchable n) -> start u < position ->
         u = t \/ end_ u <= pos t.
Proof.
  induction n as [n IHc _] using Node_ind'. intros Hwf Htokn t H.
  rewrite findPrecedingToken_find_eq in H.
  destruct (isToken n) eqn:Hn.
  { injection H as <-. split; [apply searchable_self; exact Hn |].
    split; [right; apply Htokn; reflexivity |].
    intros u Hu _. apply searchable_inv in Hu.
    destruct Hu as [[_ ->] | [Hn' _]]; [left; reflexivity | congruence]. }
  destruct (wellFormed_inv n Hwf) as (_ & _ & _ & Hch & _).
  apply (findPrecedingToken_children_inv (children n) _ _ (children n) [] t
           eq_refl) in H; [| intros x []].
  destruct H as [(l1 & c & l2 & cand & Heq & Hb & Hend & Hstart & Hinv & Hcand & Hrt)
                | [(l1 & c & l2 & Heq & Hb & Hin & Hinv & Hf)
                  | (Hinv & Hafter)]].
  - (* the offset is before the content of [c]: the candidate to its left *)
    destruct (candidate_last n l1 (c :: l2) cand t Hwf Heq Hcand Hrt)
      as (Hcl & Hbc & Ht & Hwc & Hmax).
    assert (Hcn : In cand (children n))
      by (rewrite Heq; apply in_or_app; left; exact Hcl).
    destruct (siblings_order n l1 c l2 Hwf Heq) as [_ Hright].
    assert (Hc : In c (children n))
      by (rewrite Heq; apply in_or_app; right; left; reflexivity).
    destruct (Hch c Hc) as (_ & _ & _ & Hwcc).
    split; [apply (searchable_child n cand); assumption |].
    split.
    + left. destruct (searchable_bounds cand t Hwc Ht) as (_ & He & _).
      pose proof (Hinv cand Hcl Hbc). lia.
    + intros u Hu Hsu. apply searchable_inv in Hu.
      destruct Hu as [[Hn' _] | (_ & x & Hx & Hbx & Hu)]; [congruence |].
      destruct (Hch x Hx) as (_ & _ & _ & Hwx).
      destruct (searchable_bounds x u Hwx Hu) as (Hpu & _ & Hsx & Hps).
      rewrite Heq in Hx. apply in_app_or in Hx.
      destruct Hx as [Hx | [<- | Hx]].
      * apply (Hmax x u Hx Hbx Hu).
      * lia.
      * pose proof (Hright x Hx). lia.
  - (* the offset is inside [c] *)
    destruct (siblings_order n l1 c l2 Hwf Heq) as [Hleft Hright].
    assert (Hc : In c (children n))
      by (rewrite Heq; apply in_or_app; right; left; reflexivity).
    destruct (Hch c Hc) as (_ & _ & _ & Hwc).
    rewrite Forall_forall in IHc.
    destruct (IHc c Hc Hwc (fun _ => Hin) t Hf) as (Ht & Hpl & Hmax).
    split; [apply (searchable_child n c); assumption |].
    split; [exact Hpl |].
    intros u Hu Hsu. apply searchable_inv in Hu.
    destruct Hu as [[Hn' _] | (_ & x & Hx & Hbx & Hu)]; [congruence |].
    destruct (Hch x Hx) as (_ & _ & _ & Hwx).
    destruct (searchable_bounds x u Hwx Hu) as (Hpu & Heu & Hsx & Hps).
    destruct (searchable_bounds c t Hwc Ht) as (Hpt & _).
    rewrite Heq in Hx. apply in_app_or in Hx.
    destruct Hx as [Hx | [<- | Hx]].
    + right. pose proof (Hleft x Hx). lia.
    + apply (Hmax u Hu Hsu).
    + pose proof (Hright x Hx). lia.
  - (* no child ends after the offset *)
    unfold findPrecedingToken_afterLoop in Hafter.
    destruct (kind n =? SourceFile); [| discriminate].
    destruct (negb (Z.of_nat (length (children n)) =? 0)); [| discriminate].
    apply bind_Return_inv in Hafter.
    destruct Hafter as ([cand|] & Hcand & Hrt); [| discriminate].
    assert (Heq : children n = children n ++ [])
      by (rewrite app_nil_r; reflexivity).
    destruct (candidate_last n (children n) [] cand t Hwf Heq Hcand Hrt)
      as (Hcl & Hbc & Ht & Hwc & Hmax).
    split; [apply (searchable_child n cand); assumption |].
    split.
    + left. destruct (searchable_bounds cand t Hwc Ht) as (_ & He & _).
      pose proof (Hinv cand Hcl Hbc). lia.
    + intros u Hu _. apply searchable_inv in Hu.
      destruct Hu as [[Hn' _] | (_ & x & Hx & Hbx & Hu)]; [congruence |].
      apply (Hmax x u Hx Hbx Hu).
Qed.

Lemma tight_eq n : tight n = tightNode n && forallb tight (children n).
Proof. destruct n; reflexivity. Qed.

Lemma tokenBearing_true c :
  tokenBearing c = true <-> nodeHasTokens c = Return true.
Proof.
  unfold tokenBearing. destruct (nodeHasTokens c) as [[|]|]; split;
    intros H; try reflexivity; try discriminate.
Qed.

Lemma tight_inv n :
  tight n = true ->
  (forall c, In c (children n) -> tight c = true)
  /\ (isToken n = false -> nodeHasTokens n = Return true ->
      (exists c, In c (children n) /\ nodeHasTokens c = Return true
                 /\ start c <= start n)
      /\ (exists c, In c (children n) /\ nodeHasTokens c = Return true
                    /\ end_ n <= end_ c)).
Proof.
  rewrite tight_eq. intros H. apply andb_prop in H as [Hn Hcs].
  rewrite forallb_forall in Hcs. split; [exact Hcs |].
  intros Htok Hb. unfold tightNode in Hn.
  apply tokenBearing_true in Hb. rewrite Htok, Hb in Hn. simpl in Hn.
  apply andb_prop in Hn as [H1 H2].
  apply existsb_exists in H1. apply existsb_exists in H2.
  destruct H1 as (c1 & Hc1 & H1). destruct H2 as (c2 & Hc2 & H2).
  apply andb_prop in H1 as [Hb1 Hs1]. apply andb_prop in H2 as [Hb2 He2].
  apply tokenBearing_true in Hb1, Hb2. apply Z.leb_le in Hs1, He2.
  split; [exists c1 | exists c2]; auto.
Qed.

Lemma findRightmostChildNodeWithTokens_returns cs : forall k,
  (forall c, In c cs -> exists b, nodeHasTokens c = Return b) ->
  (k <= length cs)%nat ->
  exists r, findRightmostChildNodeWithTokens cs k = Return r.
Proof.
  induction k as [|k IH]; intros Hb Hk; simpl; [eexists; reflexivity |].
  destruct (nth_error cs k) as [c|] eqn:Hnth.
  - destruct (Hb c (nth_error_In _ _ Hnth)) as [[|] ->]; simpl.
    + eexists; reflexivity.
    + apply IH; [exact Hb | lia].
  - apply nth_error_None in Hnth. lia.
Qed.

(** The scan answers a child as soon as one to the left of the index
    passes [nodeHasTokens]. *)
Lemma findRightmostChildNodeWithTokens_some n l1 l2 c :
  wellFormed n = true ->
  children n = l1 ++ l2 ->
  In c l1 -> nodeHasTokens c = Return true ->
  exists cand,
    findRightmostChildNodeWithTokens (children n) (length l1)
      = Return (Some cand).
Proof.
  intros Hwf Heq Hc Hb.
  destruct (wellFormed_inv n Hwf) as (_ & _ & _ & Hch & _).
  destruct (findRightmostChildNodeWithTokens_returns (children n) (length l1))
    as [[cand|] Hr].
  - intros x Hx. apply nodeHasTokens_wellFormed. apply (Hch x Hx).
  - rewrite Heq, length_app. lia.
  - exists cand. exact Hr.
  - exfalso. rewrite Heq in Hr.
    apply findRightmostChildNodeWithTokens_spec in Hr.
    rewrite (Hr c Hc) in Hb. discriminate.
Qed.

(** Under a tight node that passes [nodeHasTokens] there is a rightmost
    token. *)
Lemma findRightmostToken_returns : forall n,
  wellFormed n = true -> tight n = true ->
  isToken n = true \/ nodeHasTokens n = Return true ->
  exists t, findRightmostToken n = Return (Some t).
Proof.
  induction n as [n IHc _] using Node_ind'. intros Hwf Ht Hn.
  rewrite findRightmostToken_eq. unfold getChildren.
  destruct (isToken n) eqn:Htok; [eexists; reflexivity |].
  destruct Hn as [Hn | Hn]; [discriminate |].
  destruct (tight_inv n Ht) as (Htc & Hex).
  destruct (Hex Htok Hn) as ((c & Hc & Hb & _) & _).
  destruct (wellFormed_inv n Hwf) as (_ & _ & _ & Hch & _).
  assert (Heq : children n = children n ++ [])
    by (rewrite app_nil_r; reflexivity).
  destruct (findRightmostChildNodeWithTokens_some n (children n) [] c
              Hwf Heq Hc Hb) as [cand Hr].
  rewrite Hr. simpl.
  rewrite Heq in Hr at 1.
  apply findRightmostChildNodeWithTokens_spec in Hr.
  destruct Hr as (m1 & m2 & Hm & Hbc & _).
  assert (Hcand : In cand (children n))
    by (rewrite Hm; apply in_or_app; right; left; reflexivity).
  rewrite Forall_forall in IHc.
  apply (IHc cand Hcand); [apply (Hch cand Hcand) | apply (Htc cand Hcand) |].
  right. exact Hbc.
Qed.

Lemma findPrecedingToken_children_skip cs find after : forall l1 i rest,
  (forall a, In a l1 -> passed position a) ->
  findPrecedingToken_children position cs find after i (l1 ++ rest)
  = findPrecedingToken_children position cs find after (i + length l1) rest.
Proof.
  induction l1 as [|a l1 IH]; intros i rest Hl1; simpl.
  - rewrite Nat.add_0_r. reflexivity.
  - assert (IH' :
      findPrecedingToken_children position cs find after (S i) (l1 ++ rest)
      = findPrecedingToken_children position cs find after
          (i + S (length l1)) rest).
    { rewrite Nat.add_succ_r. apply (IH (S i) rest).
      intros x Hx. apply Hl1. right. exact Hx. }
    destruct (Hl1 a (or_introl eq_refl)) as [Ha | [Ha Hend]];
      rewrite Ha; simpl; [exact IH' |].
    apply Z.ltb_ge in Hend. rewrite Hend. exact IH'.
Qed.

Lemma findPrecedingToken_children_through cs find after l1 :
  (forall a, In a l1 -> passed position a) ->
  findPrecedingToken_children position cs find after O l1 = after.
Proof.
  intros Hl1. rewrite <- (app_nil_r l1) at 1.
  rewrite (findPrecedingToken_children_skip cs find after l1 O [] Hl1).
  reflexivity.
Qed.

Lemma findPrecedingToken_children_at cs find after l1 c l2 :
  (forall a, In a l1 -> passed position a) ->
  nodeHasTokens c = Return true ->
  position < end_ c ->
  findPrecedingToken_children position cs find after O (l1 ++ c :: l2)
  = if getStart c >=? position then
      candidate <- findRightmostChildNodeWithTokens cs (length l1) ;;
      match candidate with
      | Some c' => findRightmostToken c'
      | None => Return None
      end
    else find c.
Proof.
  intros Hl1 Hb Hend.
  rewrite (findPrecedingToken_children_skip cs find after l1 O (c :: l2) Hl1).
  simpl. rewrite Hb. simpl. apply Z.ltb_lt in Hend. rewrite Hend.
  reflexivity.
Qed.

Lemma first_not_passed : forall cs,
  (forall c, In c cs -> exists b, nodeHasTokens c = Return b) ->
  (forall a, In a cs -> passed position a)
  \/ exists l1 c l2,
       cs = l1 ++ c :: l2 /\ (forall a, In a l1 -> passed position a)
       /\ nodeHasTokens c = Return true /\ position < end_ c.
Proof.
  induction cs as [|x cs IH]; intros Hb.
  - left. intros a [].
  - assert (Hx : passed position x
                 \/ (nodeHasTokens x = Return true /\ position < end_ x)).
    { destruct (Hb x (or_introl eq_refl)) as [[|] Hbx].
      - destruct (Z_lt_ge_dec position (end_ x)) as [Hlt | Hge].
        + right. auto.
        + left. right. split; [exact Hbx | lia].
      - left. left. exact Hbx. }
    destruct Hx as [Hx | [Hbx Hend]].
    + destruct IH as [Hall | (l1 & c & l2 & Heq & Hl1 & Hc & Hend)].
      * intros c Hc. apply Hb. right. exact Hc.
      * left. intros a [<- | Ha]; [exact Hx | apply Hall, Ha].
      * right. exists (x :: l1), c, l2. subst cs.
        repeat split; try assumption.
        intros a [<- | Ha]; [exact Hx | apply Hl1, Ha].
    + right. exists [], x, cs. repeat split; try assumption. intros a [].
Qed.

Lemma children_return n :
  wellFormed n = true ->
  forall c, In c (children n) -> exists b, nodeHasTokens c = Return b.
Proof.
  intros Hwf c Hc. apply nodeHasTokens_wellFormed.
  apply (wellFormed_inv n Hwf). exact Hc.
Qed.

(** In a tight tree the search started inside a node that passes
    [nodeHasTokens] ends on a token. *)
Lemma findPrecedingToken_find_returns : forall n,
  wellFormed n = true -> tight n = true ->
  isToken n = true
    \/ (nodeHasTokens n = Return true /\ start n < position < end_ n) ->
  exists t, findPrecedingToken_find position n = Return (Some t).
Proof.
  induction n as [n IHc _] using Node_ind'. intros Hwf Ht Hn.
  rewrite findPrecedingToken_find_eq.
  destruct (isToken n) eqn:Htok; [eexists; reflexivity |].
  destruct Hn as [Hn | [Hb Hin]]; [discriminate |].
  destruct (tight_inv n Ht) as (Htc & Hex).
  destruct (Hex Htok Hb) as ((c1 & Hc1 & Hb1 & Hs1) & (c2 & Hc2 & Hb2 & He2)).
  destruct (wellFormed_inv n Hwf) as (_ & _ & _ & Hch & _).
  destruct (first_not_passed (children n) (children_return n Hwf))
    as [Hall | (l1 & c & l2 & Heq & Hl1 & Hbc & Hend)].
  { exfalso. destruct (Hall c2 Hc2) as [H | [_ H]]; [congruence | lia]. }
  assert (Hc : In c (children n))
    by (rewrite Heq; apply in_or_app; right; left; reflexivity).
  destruct (Hch c Hc) as (_ & _ & _ & Hwc).
  pose proof (findPrecedingToken_children_at (children n)
                (findPrecedingToken_find position)
                (findPrecedingToken_afterLoop n) l1 c l2 Hl1 Hbc Hend) as Hloop.
  rewrite <- Heq in Hloop. rewrite Hloop. clear Hloop.
  destruct (getStart c >=? position) eqn:Hstart.
  - apply Z.geb_le in Hstart. unfold getStart in Hstart.
    assert (Hc1l : In c1 l1).
    { destruct (siblings_order n l1 c l2 Hwf Heq) as [_ Hright].
      destruct (Hch c1 Hc1) as (_ & _ & _ & Hw1).
      destruct (wellFormed_inv c1 Hw1) as (Hps & _).
      rewrite Heq in Hc1. apply in_app_or in Hc1.
      destruct Hc1 as [H | [<- | H]]; [exact H | lia |].
      pose proof (Hright c1 H). lia. }
    destruct (findRightmostChildNodeWithTokens_some n l1 (c :: l2) c1
                Hwf Heq Hc1l Hb1) as [cand Hr].
    rewrite Hr. simpl.
    rewrite Heq in Hr. apply findRightmostChildNodeWithTokens_spec in Hr.
    destruct Hr as (m1 & m2 & Hm & Hbcand & _).
    assert (Hcand : In cand (children n)).
    { rewrite Heq, Hm. apply in_or_app. left.
      apply in_or_app. right. left. reflexivity. }
    apply findRightmostToken_returns;
      [apply (Hch cand Hcand) | apply (Htc cand Hcand) | right; exact Hbcand].
  - rewrite Forall_forall in IHc.
    apply (IHc c Hc Hwc (Htc c Hc)). right. split; [exact Hbc |].
    unfold getStart in Hstart.
    destruct (Z_lt_ge_dec (start c) position) as [Hlt | Hge]; [lia |].
    apply Z.ge_le, Z.geb_le in Hge. rewrite Hge in Hstart. discriminate.
Qed.

(** On a tight source file the search returns, and it answers no token
    only when no searchable token starts before the position. *)
Lemma findPrecedingToken_find_total_below file :
  wellFormed file = true ->
  (forall c, In c (children file) -> tight c = true) ->
  isToken file = false -> kind file = SourceFile ->
  exists r,
    findPrecedingToken_find position file = Return r
    /\ (r = None ->
        forall u, In u (searchable file) -> ~ (start u < position)).
Proof.
  intros Hwf Htc Htok Hk.
  rewrite findPrecedingToken_find_eq, Htok.
  destruct (wellFormed_inv file Hwf) as (_ & _ & _ & Hch & _).
  assert (Hcandidate : forall l1 l2 cand,
            children file = l1 ++ l2 ->
            findRightmostChildNodeWithTokens (children file) (length l1)
              = Return (Some cand) ->
            exists t, findRightmostToken cand = Return (Some t)).
  { intros l1 l2 cand Heq Hr. rewrite Heq in Hr.
    apply findRightmostChildNodeWithTokens_spec in Hr.
    destruct Hr as (m1 & m2 & Hm & Hbcand & _).
    assert (Hcand : In cand (children file)).
    { rewrite Heq, Hm. apply in_or_app. left.
      apply in_or_app. right. left. reflexivity. }
    apply findRightmostToken_returns;
      [apply (Hch cand Hcand) | apply (Htc cand Hcand) | right; exact Hbcand]. }
  destruct (first_not_passed (children file) (children_return file Hwf))
    as [Hall | (l1 & c & l2 & Heq & Hl1 & Hbc & Hend)].
  - (* every child is passed over: the code after the loop *)
    assert (Heq : children file = children file ++ [])
      by (rewrite app_nil_r; reflexivity).
    rewrite (findPrecedingToken_children_through _ _ _ (children file) Hall).
    unfold findPrecedingToken_afterLoop. rewrite Hk, Z.eqb_refl.
    destruct (negb (Z.of_nat (length (children file)) =? 0)) eqn:Hlen.
    + destruct (findRightmostChildNodeWithTokens_returns (children file)
                  (length (children file)) (children_return file Hwf)
                  (Nat.le_refl _)) as [[cand|] Hr]; rewrite Hr; simpl.
      * destruct (Hcandidate (children file) [] cand Heq Hr) as [t Hrt].
        exists (Some t). split; [exact Hrt | discriminate].
      * exists None. split; [reflexivity |]. intros _ u Hu _.
        rewrite Heq in Hr at 1.
        apply findRightmostChildNodeWithTokens_spec in Hr.
        apply searchable_inv in Hu.
        destruct Hu as [[Hn _] | (_ & x & Hx & Hbx & _)]; [congruence |].
        rewrite (Hr x Hx) in Hbx. discriminate.
    + exists None. split; [reflexivity |]. intros _ u Hu _.
      apply negb_false_iff, Z.eqb_eq in Hlen.
      destruct (children file) as [|x xs] eqn:Hcs; [| simpl in Hlen; lia].
      apply searchable_inv in Hu.
      destruct Hu as [[Hn _] | (_ & x & Hx & _)]; [congruence |].
      rewrite Hcs in Hx. destruct Hx.
  - assert (Hc : In c (children file))
      by (rewrite Heq; apply in_or_app; right; left; reflexivity).
    destruct (Hch c Hc) as (_ & _ & _ & Hwc).
    pose proof (findPrecedingToken_children_at (children file)
                  (findPrecedingToken_find position)
                  (findPrecedingToken_afterLoop file) l1 c l2 Hl1 Hbc Hend)
      as Hloop.
    rewrite <- Heq in Hloop. rewrite Hloop. clear Hloop.
    destruct (getStart c >=? position) eqn:Hstart.
    + apply Z.geb_le in Hstart. unfold getStart in Hstart.
      destruct (findRightmostChildNodeWithTokens_returns (children file)
                  (length l1) (children_return file Hwf)) as [[cand|] Hr].
      { rewrite Heq, length_app. lia. }
      * rewrite Hr. simpl.
        destruct (Hcandidate l1 (c :: l2) cand Heq Hr) as [t Hrt].
        exists (Some t). split; [exact Hrt | discriminate].
      * rewrite Hr. simpl. exists None. split; [reflexivity |].
        intros _ u Hu Hsu.
        rewrite Heq in Hr. apply findRightmostChildNodeWithTokens_spec in Hr.
        destruct (siblings_order file l1 c l2 Hwf Heq) as [_ Hright].
        apply searchable_inv in Hu.
        destruct Hu as [[Hn _] | (_ & x & Hx & Hbx & Hu)]; [congruence |].
        destruct (Hch x Hx) as (_ & _ & _ & Hwx).
        destruct (searchable_bounds x u Hwx Hu) as (Hpu & _ & Hsx & Hps).
        rewrite Heq in Hx. apply in_app_or in Hx.
        destruct Hx as [Hx | [<- | Hx]].
        -- rewrite (Hr x Hx) in Hbx. discriminate.
        -- lia.
        -- pose proof (Hright x Hx). lia.
    + destruct (findPrecedingToken_find_returns c Hwc (Htc c Hc)) as [t Hf].
      * right. split; [exact Hbc |]. unfold getStart in Hstart.
        destruct (Z_lt_ge_dec (start c) position) as [Hlt | Hge]; [lia |].
        apply Z.ge_le, Z.geb_le in Hge. rewrite Hge in Hstart. discriminate.
      * exists (Some t). split; [exact Hf | discriminate].
Qed.

Lemma findPrecedingToken_find_total file :
  wellFormed file = true -> tight file = true ->
  isToken file = false -> kind file = SourceFile ->
  exists r,
    findPrecedingToken_find position file = Return r
    /\ (r = None ->
        forall u, In u (searchable file) -> ~ (start u < position)).
Proof.
  intros Hwf Ht Htok Hk.
  apply findPrecedingToken_find_total_below; try assumption.
  apply (tight_inv file Ht).
Qed.


End PrecedingToken.

Section PrecedingTokenClaim.

Context {K : SyntaxKind}.

(** C1, as the code has it.  Let [findPrecedingToken] answer a token [t]
    on a well-formed source file.  Then [t] is a searchable token of the
    tree and either ends at or before the offset, or strictly contains
    it in its rendered span, in which case the token is answered although
    it ends after the offset.  Every other searchable token that starts
    before the offset ends at or before the full start of [t]; hence [t]
    has the greatest end among the non-empty searchable tokens that end
    at or before the offset.  When no token of the tree ends at or before
    the offset or strictly contains it, the answer is absent.  On a
    [SourceFile] whose children are tight, whatever trivia the file ends
    with, the search returns, and its answer is absent only when no
    searchable token starts before the offset. *)
Theorem findPrecedingToken_spec (p : Z) (file : Node) :
  wellFormed file = true ->
  isToken file = false ->
  (forall r, findPrecedingToken p file = Return r ->
     (forall t, r = Some t ->
        In t (searchable file) /\ In t (descendants file) /\ isToken t = true
        /\ (end_ t <= p \/ start t < p < end_ t)
        /\ (forall u, In u (searchable file) -> start u < p ->
              u = t \/ end_ u <= pos t)
        /\ (forall u, In u (searchable file) -> start u < end_ u ->
              end_ u <= p -> end_ u <= end_ t))
     /\ ((forall u, In u (descendants file) -> isToken u = true ->
            p < end_ u /\ ~ (start u < p)) -> r = None))
  /\ (kind file = SourceFile ->
      (forall c, In c (children file) -> tight c = true) ->
      exists r, findPrecedingToken p file = Return r
                /\ (r = None ->
                    forall u, In u (searchable file) -> ~ (start u < p))).
Proof.
  intros Hwf Hfile. split.
  2: { intros Hk Ht. unfold findPrecedingToken.
       apply (findPrecedingToken_find_total_below p file Hwf Ht Hfile Hk). }
  intros r H. unfold findPrecedingToken in H.
  assert (Hspec : forall t, r = Some t ->
            In t (searchable file)
            /\ (end_ t <= p \/ start t < p < end_ t)
            /\ forall u, In u (searchable file) -> start u < p ->
                 u = t \/ end_ u <= pos t).
  { intros t ->. apply (findPrecedingToken_find_spec p file Hwf); [| exact H].
    rewrite Hfile. discriminate. }
  split.
  - intros t Hr. destruct (Hspec t Hr) as (Ht & Hpl & Hmax).
    destruct (searchable_props file t Ht) as (Hd & Htok & _).
    repeat split; try assumption.
    intros u Hu Hwide Hend.
    destruct (Hmax u Hu) as [-> | Hle]; [lia | lia |].
    destruct (searchable_bounds file t Hwf Ht) as (_ & _ & _ & Hps).
    destruct (descendants_bounds file Hwf t Hd) as (Hwt & _).
    destruct (wellFormed_inv t Hwt) as (_ & Hspan & _). lia.
  - intros Hnone. destruct r as [t|]; [| reflexivity].
    destruct (Hspec t eq_refl) as (Ht & Hpl & _).
    destruct (searchable_props file t Ht) as (Hd & Htok & _).
    destruct (Hnone t Hd Htok). lia.
Qed.

End PrecedingTokenClaim.

(** ** The token-bearing test in the two searches *)

Section Exclusions.

Context {K : SyntaxKind}.












End Exclusions.

(** * Further properties of the code *)

(** ** The resolvers *)

Section ResolverExtras.

Context {K : SyntaxKind}.

(** X1.  Unless it is the node the descent started from, the answer of
    [getTokenAtPosition] contains the offset in its full span, and the
    answer of [getNodeAtPosition] contains it in its rendered span. *)
Theorem resolvers_answer_contains (file : Node) (p : Z) :
  (getTokenAtPosition file p = file
   \/ pos (getTokenAtPosition file p) <= p < end_ (getTokenAtPosition file p))
  /\ (getNodeAtPosition file p = file
      \/ start (getNodeAtPosition file p) <= p
           < end_ (getNodeAtPosition file p)).
Proof.
  split.
  - destruct (resolve_contains pos p (fun n => getTokenAtPosition n p)
                (getTokenAtPosition_eq p) file) as [H | H]; [left; exact H |].
    right. apply (contains_true pos p). exact H.
  - destruct (resolve_contains start p (fun n => getNodeAtPosition n p)
                (getNodeAtPosition_eq p) file) as [H | H]; [left; exact H |].
    right. apply (contains_true start p). exact H.
Qed.

(** X2.  Each resolver is stable: started again from its own answer, at the
    same offset, it gives that answer. *)
Theorem resolvers_stable (file : Node) (p : Z) :
  getTokenAtPosition (getTokenAtPosition file p) p = getTokenAtPosition file p
  /\ getNodeAtPosition (getNodeAtPosition file p) p = getNodeAtPosition file p.
Proof.
  split.
  - apply (resolve_stable pos p (fun n => getTokenAtPosition n p)
             (getTokenAtPosition_eq p) file).
  - apply (resolve_stable start p (fun n => getNodeAtPosition n p)
             (getNodeAtPosition_eq p) file).
Qed.

Lemma getTokenAtPosition_through_node (p : Z) : forall n,
  wellFormed n = true ->
  getTokenAtPosition (getNodeAtPosition n p) p = getTokenAtPosition n p.
Proof.
  induction n as [n IHc _] using Node_ind'. intros Hwf.
  rewrite (getNodeAtPosition_eq p n).
  destruct (firstChild (contains start p) (fun c => getNodeAtPosition c p)
              (children n)) as [r|] eqn:Hf; [| reflexivity].
  apply firstChild_inv in Hf. destruct Hf as (c & Hc & Hhit & ->).
  apply contains_true in Hhit.
  destruct (wellFormed_inv n Hwf) as (_ & _ & _ & Hch & _).
  destruct (Hch c Hc) as (_ & _ & _ & Hwc).
  destruct (wellFormed_inv c Hwc) as (Hps & _).
  destruct (in_split c (children n) Hc) as (l1 & l2 & Heq).
  destruct (siblings_order n l1 c l2 Hwf Heq) as [Hleft _].
  rewrite Forall_forall in IHc. rewrite (IHc c Hc Hwc).
  rewrite (getTokenAtPosition_eq p n), Heq.
  rewrite (firstChild_hit pos p (fun c => getTokenAtPosition c p)).
  - reflexivity.
  - intros a Ha. apply contains_false. pose proof (Hleft a Ha). lia.
  - apply contains_true. lia.
Qed.

(** X3.  In a well-formed tree the descent of [getTokenAtPosition] passes
    through the answer of [getNodeAtPosition]: its answer lies in the
    subtree of that node and is what the descent gives from there. *)
Theorem getTokenAtPosition_below_node (file : Node) (p : Z) :
  wellFormed file = true ->
  getTokenAtPosition (getNodeAtPosition file p) p = getTokenAtPosition file p
  /\ In (getTokenAtPosition file p) (descendants (getNodeAtPosition file p)).
Proof.
  intros Hwf.
  pose proof (getTokenAtPosition_through_node p file Hwf) as H.
  split; [exact H |]. rewrite <- H.
  apply (resolve_stops pos p (fun n => getTokenAtPosition n p)
           (getTokenAtPosition_eq p) (getNodeAtPosition file p)).
Qed.

End ResolverExtras.

(** ** List navigation *)

Section ListNavigationExtras.

Context {K : SyntaxKind}.

(** X4.  On a node that is not a list group
    [findListItemIndexContainingPosition] fails its assertion, whatever
    the offset.  On a list group it returns [-1] or an index of the list:
    the index of the first child whose full span contains the offset,
    also when the children overlap or are not sorted, and [-1] only when
    no child's full span contains it. *)
Theorem findListItemIndexContainingPosition_outcomes (lst : Node) (p : Z) :
  (kind lst <> SyntaxList ->
   findListItemIndexContainingPosition lst p = Throw AssertionFailure)
  /\ (kind lst = SyntaxList ->
      exists r,
        findListItemIndexContainingPosition lst p = Return r
        /\ -1 <= r < Z.of_nat (length (children lst))
        /\ (r = -1 ->
            forall c, In c (children lst) -> ~ (pos c <= p < end_ c))
        /\ (0 <= r ->
            exists c, nth_error (children lst) (Z.to_nat r) = Some c
                      /\ pos c <= p < end_ c
                      /\ forall j c', (j < Z.to_nat r)%nat ->
                           nth_error (children lst) j = Some c' ->
                           ~ (pos c' <= p < end_ c'))).
Proof.
  unfold findListItemIndexContainingPosition, getChildren. split.
  - intros Hk. apply Z.eqb_neq in Hk. rewrite Hk. reflexivity.
  - intros Hk. rewrite Hk, Z.eqb_refl.
    exists (listItemLoop 0 (children lst) p). split; [reflexivity |].
    destruct (listItemLoop_spec p (children lst) 0)
      as [[Hr Hall] | (l1 & x & l2 & Heq & Hl1 & Hx & Hr)]; rewrite Hr.
    + split; [lia |]. split; [intros _; exact Hall | lia].
    + rewrite Heq, length_app. simpl length.
      split; [lia |]. split; [lia |]. intros _.
      replace (Z.to_nat (0 + Z.of_nat (length l1))) with (length l1) by lia.
      exists x. split; [| split; [exact Hx |]].
      * rewrite nth_error_app2, Nat.sub_diag by lia. reflexivity.
      * intros j c' Hj Hn. rewrite nth_error_app1 in Hn by exact Hj.
        apply (Hl1 c'). apply (nth_error_In _ _ Hn).
Qed.

Lemma indexOfFrom_spec (value : Node) : forall cs i0,
  (indexOfFrom i0 cs value = -1
   /\ forall x, In x cs -> id x <> id value)
  \/ (exists l1 x l2,
        cs = l1 ++ x :: l2
        /\ (forall a, In a l1 -> id a <> id value)
        /\ id x = id value
        /\ indexOfFrom i0 cs value = i0 + Z.of_nat (length l1)).
Proof.
  induction cs as [|c cs IH]; intros i0.
  - left. split; [reflexivity | intros x []].
  - simpl. unfold sameNode. destruct (Nat.eqb (id c) (id value)) eqn:Hc.
    + right. exists [], c, cs. apply Nat.eqb_eq in Hc.
      split; [reflexivity |]. split; [intros a [] |].
      split; [exact Hc | simpl; lia].
    + apply Nat.eqb_neq in Hc.
      destruct (IH (i0 + 1)) as [[Hr Hall] | (l1 & x & l2 & Heq & Hl1 & Hx & Hr)].
      * left. split; [exact Hr |]. intros a [<- | Ha]; [exact Hc | apply Hall, Ha].
      * right. exists (c :: l1), x, l2. subst cs.
        split; [reflexivity |]. split.
        -- intros a [<- | Ha]; [exact Hc | apply Hl1, Ha].
        -- split; [exact Hx |]. rewrite Hr. simpl length. lia.
Qed.

(** X5.  [findListItemInfo] throws, a [TypeError], exactly when the node
    has no parent or no list group among the parent's children covers the
    node's span.  Otherwise it returns a list group of the parent that
    covers the node's span together with the index of the first child of
    that list that is the node itself, or [-1] when the node is not among
    the children of that list. *)
Theorem findListItemInfo_outcomes (parent : Node -> option Node) (node : Node) :
  match findListItemInfo parent node with
  | Throw e =>
      e = TypeError
      /\ (parent node = None
          \/ exists P, parent node = Some P
               /\ forall c, In c (children P) ->
                    ~ (kind c = SyntaxList /\ pos c <= pos node
                       /\ end_ node <= end_ c))
  | Return info =>
      let l := ListItemInfo.list info in
      let i := ListItemInfo.listItemIndex info in
      (exists P, parent node = Some P /\ In l (children P))
      /\ kind l = SyntaxList /\ pos l <= pos node /\ end_ node <= end_ l
      /\ ((i = -1 /\ forall x, In x (children l) -> id x <> id node)
          \/ (0 <= i < Z.of_nat (length (children l))
              /\ exists x, nth_error (children l) (Z.to_nat i) = Some x
                           /\ id x = id node
                           /\ forall j a, (j < Z.to_nat i)%nat ->
                                nth_error (children l) j = Some a ->
                                id a <> id node))
  end.
Proof.
  unfold findListItemInfo, findContainingList, getChildren.
  destruct (parent node) as [P|] eqn:Hp; simpl; [| auto].
  destruct (forEach_first
              (fun c => (kind c =? SyntaxList) && (pos c <=? pos node)
                        && (end_ c >=? end_ node)) (children P))
    as [[Hr Hall] | (l1 & l & l2 & Heq & Hl1 & Hl & Hr)]; rewrite Hr.
  - split; [reflexivity |]. right. exists P. split; [reflexivity |].
    intros c Hc Hcov. apply covering_true in Hcov.
    rewrite (Hall c Hc) in Hcov. discriminate.
  - simpl. apply covering_true in Hl. destruct Hl as (Hk & Hpl & Hel).
    split.
    { exists P. split; [reflexivity |].
      rewrite Heq. apply in_or_app. right. left. reflexivity. }
    split; [exact Hk |]. split; [exact Hpl |]. split; [exact Hel |].
    unfold indexOf.
    destruct (indexOfFrom_spec node (children l) 0)
      as [[Hi Hnone] | (m1 & x & m2 & Hm & Hm1 & Hx & Hi)]; rewrite Hi.
    + left. auto.
    + right. rewrite Hm, length_app. simpl length. split; [lia |].
      replace (Z.to_nat (0 + Z.of_nat (length m1))) with (length m1) by lia.
      exists x. split; [| split; [exact Hx |]].
      * rewrite nth_error_app2, Nat.sub_diag by lia. reflexivity.
      * intros j a Hj Hn. rewrite nth_error_app1 in Hn by exact Hj.
        apply (Hm1 a). apply (nth_error_In _ _ Hn).
Qed.

End ListNavigationExtras.

(** ** The token-bearing test *)

Section TokenBearingExtras.

Context {K : SyntaxKind}.

Lemma nodeHasTokens_throws : forall n e,
  nodeHasTokens n = Throw e -> e = TypeError /\ typed n = false.
Proof.
  induction n as [n _ IHe] using Node_ind'. intros e H.
  rewrite nodeHasTokens_eq in H. rewrite typed_eq.
  destruct (kind n =? ExpressionStatement).
  - destruct (expression n) as [ex|].
    + apply (IHe e H).
    + injection H as <-. auto.
  - destruct ((kind n =? EndOfFileToken) || (kind n =? OmittedExpression)
              || (kind n =? Missing)); discriminate.
Qed.

(** X6.  [nodeHasTokens] throws only by reading the kind of an absent
    expression: it returns a boolean exactly when the chain of
    expressions of expression statements that starts at the node ends in
    a node that is not an expression statement, and otherwise throws a
    [TypeError].  Neither the spans nor, except for the emptiness of a
    list group, the children of the node matter. *)
Theorem nodeHasTokens_outcomes (n : Node) :
  (typed n = true <-> exists b, nodeHasTokens n = Return b)
  /\ (typed n = false <-> nodeHasTokens n = Throw TypeError)
  /\ (forall i p s e p' s' e' cs cs',
        (kind n = SyntaxList -> (cs = [] <-> cs' = [])) ->
        nodeHasTokens (mkNode i (kind n) p s e cs (expression n))
        = nodeHasTokens (mkNode i (kind n) p' s' e' cs' (expression n))).
Proof.
  assert (H1 : typed n = true <-> exists b, nodeHasTokens n = Return b).
  { split; [apply nodeHasTokens_typed |].
    intros [b Hb]. destruct (typed n) eqn:Ht; [reflexivity |].
    destruct (nodeHasTokens n) as [b'|e] eqn:Hn; [| discriminate].
    exfalso. clear Hb b.
    revert b' Hn Ht. induction n as [n _ IHe] using Node_ind'.
    intros b' Hn Ht. rewrite nodeHasTokens_eq in Hn. rewrite typed_eq in Ht.
    destruct (kind n =? ExpressionStatement); [| discriminate].
    destruct (expression n) as [ex|]; [| discriminate].
    apply (IHe b' Hn Ht). }
  split; [exact H1 |]. split.
  - split.
    + intros Ht. destruct (nodeHasTokens n) as [b|e] eqn:Hn.
      * assert (typed n = true) by (apply H1; exists b; reflexivity).
        congruence.
      * destruct (nodeHasTokens_throws n e Hn) as [-> _]. reflexivity.
    + intros Hn. apply (nodeHasTokens_throws n TypeError Hn).
  - intros i p s e p' s' e' cs cs' Hcs. simpl.
    destruct (kind n =? ExpressionStatement); [reflexivity |].
    destruct ((kind n =? EndOfFileToken) || (kind n =? OmittedExpression)
              || (kind n =? Missing)); [reflexivity |].
    unfold getChildCount. simpl.
    destruct (kind n =? SyntaxList) eqn:Hk; [| reflexivity].
    apply Z.eqb_eq in Hk. specialize (Hcs Hk).
    destruct cs, cs'; try reflexivity.
    + destruct Hcs as [Hcs _]. specialize (Hcs eq_refl). discriminate.
    + destruct Hcs as [_ Hcs]. specialize (Hcs eq_refl). discriminate.
Qed.

End TokenBearingExtras.

(** ** The rightmost child and the rightmost token *)

Section RightmostExtras.

Context {K : SyntaxKind}.

Lemma findRightmostChildNodeWithTokens_returns_before : forall pre post,
  (forall c, In c pre -> typed c = true) ->
  exists r,
    findRightmostChildNodeWithTokens (pre ++ post) (length pre) = Return r.
Proof.
  induction pre as [|x pre IH] using rev_ind; intros post Hty.
  - simpl. eexists; reflexivity.
  - rewrite length_app, Nat.add_1_r. simpl.
    rewrite <- app_assoc. simpl.
    rewrite nth_error_app2, Nat.sub_diag by lia. simpl.
    destruct (nodeHasTokens_typed x) as [[|] Hx].
    + apply Hty. apply in_or_app. right. left. reflexivity.
    + rewrite Hx. simpl. eexists; reflexivity.
    + rewrite Hx. simpl. apply (IH (x :: post)).
      intros c Hc. apply Hty. apply in_or_app. left. exact Hc.
Qed.

(** X7.  [findRightmostChildNodeWithTokens] reads only the children
    before the exclusive index: when [nodeHasTokens] returns on each of
    them it answers the last one that passes, or nothing when none does,
    whatever follows the index.  Called with an index beyond the number
    of children it throws a [TypeError]. *)
Theorem findRightmostChildNodeWithTokens_outcomes (pre post : list Node) :
  (forall c, In c pre -> typed c = true) ->
  (exists r,
      findRightmostChildNodeWithTokens (pre ++ post) (length pre) = Return r
      /\ match r with
         | None => forall c, In c pre -> nodeHasTokens c = Return false
         | Some c =>
             exists l1 l2,
               pre = l1 ++ c :: l2 /\ nodeHasTokens c = Return true
               /\ forall x, In x l2 -> nodeHasTokens x = Return false
         end
      /\ forall post',
           findRightmostChildNodeWithTokens (pre ++ post') (length pre)
           = Return r)
  /\ forall k, (length pre < k)%nat ->
       findRightmostChildNodeWithTokens pre k = Throw TypeError.
Proof.
  intros Hty. split.
  - destruct (findRightmostChildNodeWithTokens_returns_before pre post Hty)
      as [r Hr].
    exists r. split; [exact Hr |].
    pose proof (findRightmostChildNodeWithTokens_spec pre post r Hr) as Hspec.
    split; [exact Hspec |].
    intros post'.
    destruct (findRightmostChildNodeWithTokens_returns_before pre post' Hty)
      as [r' Hr'].
    rewrite Hr'. f_equal.
    pose proof (findRightmostChildNodeWithTokens_spec pre post' r' Hr') as Hspec'.
    destruct r as [c|], r' as [c'|]; try reflexivity.
    + destruct Hspec as (l1 & l2 & Heq & Hb & Hl2).
      destruct Hspec' as (m1 & m2 & Heq' & Hb' & Hm2).
      f_equal.
      assert (Hlen : length l2 = length m2).
      { destruct (Nat.lt_trichotomy (length l2) (length m2)) as [H | [H | H]];
          [| exact H |]; exfalso.
        - (* [c] lies in [m2] *)
          assert (Hin : In c m2).
          { assert (Hn : nth_error pre (length l1) = Some c)
              by (rewrite Heq, nth_error_app2, Nat.sub_diag by lia; reflexivity).
            assert (Hlp : length pre = (length l1 + S (length l2))%nat)
              by (rewrite Heq, length_app; reflexivity).
            assert (Hmp : length pre = (length m1 + S (length m2))%nat)
              by (rewrite Heq', length_app; reflexivity).
            rewrite Heq', nth_error_app2 in Hn by lia.
            destruct (length l1 - length m1)%nat as [|j] eqn:Hj; [lia |].
            simpl in Hn. apply (nth_error_In _ _ Hn). }
          rewrite (Hm2 c Hin) in Hb. discriminate.
        - assert (Hin : In c' l2).
          { assert (Hn : nth_error pre (length m1) = Some c')
              by (rewrite Heq', nth_error_app2, Nat.sub_diag by lia; reflexivity).
            assert (Hlp : length pre = (length l1 + S (length l2))%nat)
              by (rewrite Heq, length_app; reflexivity).
            assert (Hmp : length pre = (length m1 + S (length m2))%nat)
              by (rewrite Heq', length_app; reflexivity).
            rewrite Heq, nth_error_app2 in Hn by lia.
            destruct (length m1 - length l1)%nat as [|j] eqn:Hj; [lia |].
            simpl in Hn. apply (nth_error_In _ _ Hn). }
          rewrite (Hl2 c' Hin) in Hb'. discriminate. }
      assert (Hn : nth_error pre (length l1) = Some c)
        by (rewrite Heq, nth_error_app2, Nat.sub_diag by lia; reflexivity).
      assert (Hlp : length pre = (length l1 + S (length l2))%nat)
        by (rewrite Heq, length_app; reflexivity).
      assert (Hmp : length pre = (length m1 + S (length m2))%nat)
        by (rewrite Heq', length_app; reflexivity).
      replace (length l1) with (length m1) in Hn by lia.
      rewrite Heq', nth_error_app2, Nat.sub_diag in Hn by lia.
      simpl in Hn. congruence.
    + destruct Hspec as (l1 & l2 & Heq & Hb & _).
      rewrite (Hspec' c) in Hb; [discriminate |].
      rewrite Heq. apply in_or_app. right. left. reflexivity.
    + destruct Hspec' as (l1 & l2 & Heq & Hb & _).
      rewrite (Hspec c') in Hb; [discriminate |].
      rewrite Heq. apply in_or_app. right. left. reflexivity.
  - intros k Hk. destruct k as [|k]; [lia |]. simpl.
    assert (Hn : nth_error pre k = None) by (apply nth_error_None; lia).
    rewrite Hn. reflexivity.
Qed.

Lemma findRightmostToken_returns_wellFormed : forall n,
  wellFormed n = true -> exists r, findRightmostToken n = Return r.
Proof.
  induction n as [n IHc _] using Node_ind'. intros Hwf.
  rewrite findRightmostToken_eq. unfold getChildren.
  destruct (isToken n); [eexists; reflexivity |].
  destruct (wellFormed_inv n Hwf) as (_ & _ & _ & Hch & _).
  destruct (findRightmostChildNodeWithTokens_returns (children n)
              (length (children n)) (children_return n Hwf) (Nat.le_refl _))
    as [[c|] Hr]; rewrite Hr; simpl; [| eexists; reflexivity].
  rewrite <- (app_nil_r (children n)) in Hr at 1.
  apply findRightmostChildNodeWithTokens_spec in Hr.
  destruct Hr as (l1 & l2 & Heq & _).
  assert (Hc : In c (children n))
    by (rewrite Heq; apply in_or_app; right; left; reflexivity).
  rewrite Forall_forall in IHc. apply (IHc c Hc). apply (Hch c Hc).
Qed.

(** X8.  On a well-formed node [findRightmostToken] returns without
    throwing.  A token it answers is a searchable token of the subtree,
    and every other searchable token of the subtree ends at or before its
    full start.  On a tight node that is a token or passes
    [nodeHasTokens] it does answer a token. *)
Theorem findRightmostToken_outcomes (n : Node) :
  wellFormed n = true ->
  (exists r, findRightmostToken n = Return r)
  /\ (forall t, findRightmostToken n = Return (Some t) ->
        In t (searchable n) /\ In t (descendants n) /\ isToken t = true
        /\ forall u, In u (searchable n) -> u = t \/ end_ u <= pos t)
  /\ (tight n = true ->
      isToken n = true \/ nodeHasTokens n = Return true ->
      exists t, findRightmostToken n = Return (Some t)).
Proof.
  intros Hwf. split; [apply findRightmostToken_returns_wellFormed; exact Hwf |].
  split.
  - intros t Ht.
    pose proof (findRightmostToken_searchable n t Ht) as Hs.
    destruct (searchable_props n t Hs) as (Hd & Htok & _).
    repeat split; try assumption.
    apply (findRightmostToken_last n Hwf t Ht).
  - intros Hti Hn. apply (findRightmostToken_returns n Hwf Hti Hn).
Qed.

End RightmostExtras.

(** ** Preceding token and left-of-cursor token *)

Section PrecedingExtras.

Context {K : SyntaxKind}.

Lemma findPrecedingToken_find_inside (p : Z) : forall n,
  wellFormed n = true ->
  forall t, In t (searchable n) -> start t < p < end_ t ->
    findPrecedingToken_find p n = Return (Some t).
Proof.
  induction n as [n IHc _] using Node_ind'. intros Hwf t Ht Hin.
  rewrite findPrecedingToken_find_eq.
  apply searchable_inv in Ht.
  destruct Ht as [[Hn ->] | (Hn & c & Hc & Hb & Ht)]; rewrite Hn;
    [reflexivity |].
  destruct (wellFormed_inv n Hwf) as (_ & _ & _ & Hch & _).
  destruct (Hch c Hc) as (_ & _ & _ & Hwc).
  destruct (searchable_bounds c t Hwc Ht) as (Hpt & Het & Hst & Hps).
  destruct (in_split c (children n) Hc) as (l1 & l2 & Heq).
  destruct (siblings_order n l1 c l2 Hwf Heq) as [Hleft _].
  assert (Hl1 : forall a, In a l1 -> passed p a).
  { intros a Ha.
    assert (Han : In a (children n))
      by (rewrite Heq; apply in_or_app; left; exact Ha).
    destruct (children_return n Hwf a Han) as [[|] Hba];
      [right | left; exact Hba].
    split; [exact Hba |]. pose proof (Hleft a Ha). lia. }
  assert (Hend : p < end_ c) by lia.
  pose proof (findPrecedingToken_children_at p (children n)
                (findPrecedingToken_find p) (findPrecedingToken_afterLoop n)
                l1 c l2 Hl1 Hb Hend) as Hloop.
  rewrite <- Heq in Hloop. rewrite Hloop.
  assert (Hs : (getStart c >=? p) = false).
  { unfold getStart. destruct (start c >=? p) eqn:E; [| reflexivity].
    apply Z.geb_le in E. lia. }
  rewrite Hs. rewrite Forall_forall in IHc. apply (IHc c Hc Hwc t Ht Hin).
Qed.

(** X9.  At an offset strictly inside the rendered span of a searchable
    token of a well-formed tree, [findPrecedingToken] answers that
    token. *)
Theorem findPrecedingToken_inside (p : Z) (file t : Node) :
  wellFormed file = true ->
  In t (searchable file) ->
  start t < p < end_ t ->
  findPrecedingToken p file = Return (Some t).
Proof.
  intros Hwf Ht Hin. apply (findPrecedingToken_find_inside p file Hwf t Ht Hin).
Qed.

Lemma findPrecedingToken_find_after (p : Z) (n : Node) :
  wellFormed n = true ->
  isToken n = false ->
  (forall c, In c (children n) -> nodeHasTokens c = Return true ->
     end_ c <= p) ->
  findPrecedingToken_find p n = findPrecedingToken_afterLoop n.
Proof.
  intros Hwf Hn Hall. rewrite findPrecedingToken_find_eq, Hn.
  apply findPrecedingToken_children_through.
  intros a Ha. destruct (children_return n Hwf a Ha) as [[|] Hba];
    [right | left; exact Hba].
  split; [exact Hba | apply (Hall a Ha Hba)].
Qed.

(** X10.  Started on a well-formed composite node that is not a
    [SourceFile], at an offset at or past the end of every child that
    passes [nodeHasTokens], and so at every offset at or past the end of
    the node, [findPrecedingToken] fails its assertion. *)
Theorem findPrecedingToken_asserts_source_file (p : Z) (n : Node) :
  wellFormed n = true ->
  isToken n = false ->
  kind n <> SourceFile ->
  (forall c, In c (children n) -> nodeHasTokens c = Return true ->
     end_ c <= p) \/ end_ n <= p ->
  findPrecedingToken p n = Throw AssertionFailure.
Proof.
  intros Hwf Hn Hk Hp. unfold findPrecedingToken.
  rewrite (findPrecedingToken_find_after p n Hwf Hn).
  - unfold findPrecedingToken_afterLoop. apply Z.eqb_neq in Hk.
    rewrite Hk. reflexivity.
  - destruct Hp as [Hp | Hp]; [exact Hp |].
    intros c Hc _. destruct (wellFormed_inv n Hwf) as (_ & _ & _ & Hch & _).
    destruct (Hch c Hc) as (_ & He & _). lia.
Qed.

Lemma findRightmostChildNodeWithTokens_none : forall cs k,
  (forall c, In c cs -> nodeHasTokens c = Return false) ->
  (k <= length cs)%nat ->
  findRightmostChildNodeWithTokens cs k = Return None.
Proof.
  intros cs k Hall. induction k as [|k IH]; intros Hk; [reflexivity |].
  simpl. destruct (nth_error cs k) as [c|] eqn:Hn.
  - rewrite (Hall c (nth_error_In _ _ Hn)). simpl. apply IH. lia.
  - apply nth_error_None in Hn. lia.
Qed.

(** X11.  On a [SourceFile] none of whose children passes
    [nodeHasTokens], such as the tree of an empty document, which holds
    the end-of-file token alone, [findPrecedingToken] answers nothing at
    every offset. *)
Theorem findPrecedingToken_tokenless_file (p : Z) (file : Node) :
  kind file = SourceFile ->
  isToken file = false ->
  (forall c, In c (children file) -> nodeHasTokens c = Return false) ->
  findPrecedingToken p file = Return None.
Proof.
  intros Hk Hn Hall. unfold findPrecedingToken.
  rewrite findPrecedingToken_find_eq, Hn.
  rewrite findPrecedingToken_children_through
    by (intros a Ha; left; apply (Hall a Ha)).
  unfold findPrecedingToken_afterLoop. rewrite Hk, Z.eqb_refl.
  destruct (negb (Z.of_nat (length (children file)) =? 0)); [| reflexivity].
  rewrite (findRightmostChildNodeWithTokens_none (children file)
             (length (children file)) Hall (Nat.le_refl _)).
  reflexivity.
Qed.

(** X12.  On a well-formed [SourceFile], at every offset at or past the
    end of the file, [findPrecedingToken] answers what
    [findRightmostToken] answers on the file: the rightmost searchable
    token, whatever the offset. *)
Theorem findPrecedingToken_past_end (p : Z) (file : Node) :
  wellFormed file = true ->
  kind file = SourceFile ->
  isToken file = false ->
  end_ file <= p ->
  findPrecedingToken p file = findRightmostToken file.
Proof.
  intros Hwf Hk Hn Hp. unfold findPrecedingToken.
  rewrite (findPrecedingToken_find_after p file Hwf Hn).
  - unfold findPrecedingToken_afterLoop. rewrite Hk, Z.eqb_refl.
    rewrite findRightmostToken_eq, Hn. unfold getChildren.
    destruct (children file) as [|c cs]; reflexivity.
  - intros c Hc _. destruct (wellFormed_inv file Hwf) as (_ & _ & _ & Hch & _).
    destruct (Hch c Hc) as (_ & He & _). lia.
Qed.

Lemma findPrecedingToken_find_greatest (p : Z) (file t : Node) :
  wellFormed file = true ->
  tight file = true ->
  kind file = SourceFile ->
  isToken file = false ->
  (forall u, In u (searchable file) -> start u < end_ u) ->
  In t (searchable file) ->
  start t < p ->
  (forall v, In v (searchable file) -> start v < p -> start v <= start t) ->
  findPrecedingToken_find p file = Return (Some t).
Proof.
  intros Hwf Hti Hk Hn Hwide Ht Hp Hmax.
  destruct (findPrecedingToken_find_total p file Hwf Hti Hn Hk)
    as ([r|] & Hr & Hnone).
  2: { exfalso. apply (Hnone eq_refl t Ht Hp). }
  rewrite Hr. do 2 f_equal.
  assert (Hroot : isToken file = true -> start file < p < end_ file)
    by (rewrite Hn; discriminate).
  destruct (findPrecedingToken_find_spec p file Hwf Hroot r Hr)
    as (Hrs & Hpl & Hlast).
  destruct (Hlast t Ht Hp) as [E | Hle]; [symmetry; exact E |].
  exfalso.
  destruct (searchable_bounds file r Hwf Hrs) as (_ & _ & _ & Hps).
  pose proof (Hwide r Hrs) as Hwr. pose proof (Hwide t Ht) as Hwt.
  assert (Hsr : start r < p) by (destruct Hpl as [H | H]; lia).
  pose proof (Hmax r Hrs Hsr). lia.
Qed.

(** X13.  On a tight, well-formed [SourceFile] whose searchable tokens
    have a non-empty rendered span, [findPrecedingToken] answers the
    searchable token that starts last among those that start before the
    offset. *)
Theorem findPrecedingToken_greatest_start (p : Z) (file t : Node) :
  wellFormed file = true ->
  tight file = true ->
  kind file = SourceFile ->
  isToken file = false ->
  (forall u, In u (searchable file) -> start u < end_ u) ->
  In t (searchable file) ->
  start t < p ->
  (forall v, In v (searchable file) -> start v < p -> start v <= start t) ->
  findPrecedingToken p file = Return (Some t).
Proof.
  intros Hwf Hti Hk Hn Hwide Ht Hp Hmax.
  apply (findPrecedingToken_find_greatest p file t); assumption.
Qed.

(** Two tokens of a well-formed tree are the same or lie apart. *)
Lemma tokens_apart : forall n,
  wellFormed n = true ->
  forall u v, In u (descendants n) -> In v (descendants n) ->
    isToken u = true -> isToken v = true ->
    u = v \/ end_ u <= pos v \/ end_ v <= pos u.
Proof.
  induction n as [n IHc _] using Node_ind'.
  intros Hwf u v Hu Hv Htu Htv.
  destruct (wellFormed_inv n Hwf) as (_ & _ & _ & Hch & Hleaf & _).
  apply descendants_inv in Hu. apply descendants_inv in Hv.
  destruct Hu as [-> | (c & Hc & Hu)].
  { destruct Hv as [-> | (d & Hd & _)]; [left; reflexivity |].
    rewrite (Hleaf Htu) in Hd. destruct Hd. }
  destruct Hv as [-> | (d & Hd & Hv)].
  { rewrite (Hleaf Htv) in Hc. destruct Hc. }
  destruct (Hch c Hc) as (_ & _ & _ & Hwc).
  destruct (Hch d Hd) as (_ & _ & _ & Hwd).
  destruct (descendants_bounds c Hwc u Hu) as (_ & Hpu & Heu & _).
  destruct (descendants_bounds d Hwd v Hv) as (_ & Hpv & Hev & _).
  destruct (in_split c (children n) Hc) as (l1 & l2 & Heq).
  destruct (siblings_order n l1 c l2 Hwf Heq) as [Hleft Hright].
  rewrite Heq in Hd. apply in_app_or in Hd.
  destruct Hd as [Hd | [<- | Hd]].
  - right. right. pose proof (Hleft d Hd). lia.
  - rewrite Forall_forall in IHc. apply (IHc c Hc Hwc); assumption.
  - right. left. pose proof (Hright d Hd). lia.
Qed.

Lemma findPrecedingToken_find_boundary (file t : Node) :
  wellFormed file = true ->
  tight file = true ->
  kind file = SourceFile ->
  isToken file = false ->
  (forall u, In u (searchable file) -> start u < end_ u) ->
  In t (searchable file) ->
  findPrecedingToken_find (end_ t) file = Return (Some t).
Proof.
  intros Hwf Hti Hk Hn Hwide Ht.
  apply (findPrecedingToken_find_greatest (end_ t) file t); try assumption.
  - apply (Hwide t Ht).
  - intros v Hv Hsv.
    destruct (searchable_props file t Ht) as (Hdt & Htt & _).
    destruct (searchable_props file v Hv) as (Hdv & Htv & _).
    destruct (searchable_bounds file v Hwf Hv) as (_ & _ & _ & Hpsv).
    destruct (searchable_bounds file t Hwf Ht) as (_ & _ & _ & Hpst).
    pose proof (Hwide v Hv).
    destruct (tokens_apart file Hwf v t Hdv Hdt Htv Htt) as [-> | [H1 | H1]];
      lia.
Qed.

(** X14.  On a tight, well-formed [SourceFile] whose searchable tokens
    have a non-empty rendered span, a cursor at the right boundary of a
    searchable token resolves to that token: at the offset where the
    token ends, both [findPrecedingToken] and [findTokenOnLeftOfPosition]
    answer it. *)
Theorem token_at_right_boundary (file t : Node) :
  wellFormed file = true ->
  tight file = true ->
  kind file = SourceFile ->
  isToken file = false ->
  (forall u, In u (searchable file) -> start u < end_ u) ->
  In t (searchable file) ->
  findPrecedingToken (end_ t) file = Return (Some t)
  /\ findTokenOnLeftOfPosition file (end_ t) = Return (Some t).
Proof.
  intros Hwf Hti Hk Hn Hwide Ht.
  assert (Hp : findPrecedingToken (end_ t) file = Return (Some t))
    by (apply findPrecedingToken_find_boundary; assumption).
  split; [exact Hp |].
  unfold findTokenOnLeftOfPosition.
  set (r := getTokenAtPosition file (end_ t)).
  destruct (isToken r && (end_ t >? getStart r) && (end_ t <? getEnd r))
    eqn:Hcond; [| exact Hp].
  exfalso. apply andb_prop in Hcond as [Hcond Hlt].
  apply andb_prop in Hcond as [Htok Hgt].
  unfold getStart in Hgt. unfold getEnd in Hlt.
  apply Z.gtb_lt in Hgt. apply Z.ltb_lt in Hlt.
  assert (Hdr : In r (descendants file)).
  { apply (resolve_stops pos (end_ t) (fun n => getTokenAtPosition n (end_ t))
             (getTokenAtPosition_eq (end_ t)) file). }
  destruct (searchable_props file t Ht) as (Hdt & Htt & _).
  destruct (descendants_bounds file Hwf r Hdr) as (Hwr & _).
  destruct (descendants_bounds file Hwf t Hdt) as (Hwt & _).
  destruct (wellFormed_inv r Hwr) as (Hpsr & _).
  destruct (wellFormed_inv t Hwt) as (_ & Hpet & _).
  destruct (tokens_apart file Hwf r t Hdr Hdt Htok Htt) as [E | [H1 | H1]];
    [rewrite E in Hlt |..]; lia.
Qed.

(** X15.  At an offset strictly inside the rendered span of a token of a
    well-formed tree, searchable or not, [findTokenOnLeftOfPosition]
    answers that token. *)
Theorem findTokenOnLeftOfPosition_inside (file t : Node) (p : Z) :
  wellFormed file = true ->
  In t (descendants file) ->
  isToken t = true ->
  start t < p < end_ t ->
  findTokenOnLeftOfPosition file p = Return (Some t).
Proof.
  intros Hwf Ht Htok Hp. unfold findTokenOnLeftOfPosition.
  destruct (descendants_bounds file Hwf t Ht) as (Hwt & _).
  destruct (wellFormed_inv t Hwt) as (Hps & _).
  rewrite (getTokenAtPosition_token file t p Hwf Ht Htok) by lia.
  unfold getStart, getEnd. rewrite Htok.
  assert (H1 : (p >? start t) = true) by (apply Z.gtb_lt; lia).
  assert (H2 : (p <? end_ t) = true) by (apply Z.ltb_lt; lia).
  rewrite H1, H2. reflexivity.
Qed.

(** X16.  A token [findTokenOnLeftOfPosition] answers on a well-formed
    tree whose root is not a token is a token of the tree that ends at or
    before the offset or strictly contains it in its rendered span: never
    one whose rendered span begins at the offset or after it while ending
    after it. *)
Theorem findTokenOnLeftOfPosition_sound (file t : Node) (p : Z) :
  wellFormed file = true ->
  isToken file = false ->
  findTokenOnLeftOfPosition file p = Return (Some t) ->
  In t (descendants file) /\ isToken t = true
  /\ (end_ t <= p \/ start t < p < end_ t).
Proof.
  intros Hwf Hn H. unfold findTokenOnLeftOfPosition in H.
  set (r := getTokenAtPosition file p) in H.
  destruct (isToken r && (p >? getStart r) && (p <? getEnd r)) eqn:Hcond.
  - injection H as <-. apply andb_prop in Hcond as [Hcond Hlt].
    apply andb_prop in Hcond as [Htok Hgt].
    unfold getStart in Hgt. unfold getEnd in Hlt.
    apply Z.gtb_lt in Hgt. apply Z.ltb_lt in Hlt.
    split; [| split; [exact Htok | right; lia]].
    apply (resolve_stops pos p (fun n => getTokenAtPosition n p)
             (getTokenAtPosition_eq p) file).
  - assert (Hroot : isToken file = true -> start file < p < end_ file)
      by (rewrite Hn; discriminate).
    destruct (findPrecedingToken_find_spec p file Hwf Hroot t H)
      as (Hs & Hpl & _).
    destruct (searchable_props file t Hs) as (Hd & Htok & _). auto.
Qed.

(** X17.  On a well-formed tree in which the tokens that strictly
    contain the offset in their rendered span are searchable,
    [findTokenOnLeftOfPosition] and [findPrecedingToken] give the same
    outcome: the test made before the search changes nothing. *)
Theorem findTokenOnLeftOfPosition_is_findPrecedingToken (file : Node) (p : Z) :
  wellFormed file = true ->
  (forall t, In t (descendants file) -> isToken t = true ->
     start t < p < end_ t -> In t (searchable file)) ->
  findTokenOnLeftOfPosition file p = findPrecedingToken p file.
Proof.
  intros Hwf Hs. unfold findTokenOnLeftOfPosition.
  set (r := getTokenAtPosition file p).
  destruct (isToken r && (p >? getStart r) && (p <? getEnd r)) eqn:Hcond;
    [| reflexivity].
  apply andb_prop in Hcond as [Hcond Hlt].
  apply andb_prop in Hcond as [Htok Hgt].
  unfold getStart in Hgt. unfold getEnd in Hlt.
  apply Z.gtb_lt in Hgt. apply Z.ltb_lt in Hlt.
  assert (Hdr : In r (descendants file)).
  { apply (resolve_stops pos p (fun n => getTokenAtPosition n p)
             (getTokenAtPosition_eq p) file). }
  symmetry. unfold findPrecedingToken.
  apply (findPrecedingToken_find_inside p file Hwf r); [| lia].
  apply (Hs r Hdr Htok). lia.
Qed.

(** X18.  Round trip of the two searches.  On a tight, well-formed
    [SourceFile] whose searchable tokens have a non-empty rendered span,
    when [findNextToken] answers [u] for a searchable token [t], the
    token that [findPrecedingToken] answers at the full start of [u] is
    [t] again. *)
Theorem findPrecedingToken_of_findNextToken (file t u : Node) :
  wellFormed file = true ->
  tight file = true ->
  kind file = SourceFile ->
  isToken file = false ->
  (forall v, In v (searchable file) -> start v < end_ v) ->
  In t (searchable file) ->
  findNextToken t file = Return (Some u) ->
  findPrecedingToken (pos u) file = Return (Some t).
Proof.
  intros Hwf Hti Hk Hn Hwide Ht Hnext.
  destruct (findNextToken_find_sound t file u Hnext) as (_ & _ & Hpos & _).
  rewrite Hpos. apply findPrecedingToken_find_boundary; assumption.
Qed.

(** X19.  On a tight, well-formed [SourceFile] whose searchable tokens
    have a non-empty rendered span, at an offset at or before the start
    of every searchable token, such as the start of the first token,
    [findPrecedingToken] answers nothing. *)
Theorem findPrecedingToken_before_first (p : Z) (file : Node) :
  wellFormed file = true ->
  tight file = true ->
  kind file = SourceFile ->
  isToken file = false ->
  (forall u, In u (searchable file) -> start u < end_ u) ->
  (forall u, In u (searchable file) -> p <= start u) ->
  findPrecedingToken p file = Return None.
Proof.
  intros Hwf Hti Hk Hn Hwide Hfirst. unfold findPrecedingToken.
  destruct (findPrecedingToken_find_total p file Hwf Hti Hn Hk)
    as ([t|] & Hr & _); [| exact Hr].
  exfalso.
  assert (Hroot : isToken file = true -> start file < p < end_ file)
    by (rewrite Hn; discriminate).
  destruct (findPrecedingToken_find_spec p file Hwf Hroot t Hr)
    as (Hs & Hpl & _).
  pose proof (Hwide t Hs). pose proof (Hfirst t Hs). lia.
Qed.

End PrecedingExtras.

(** * Concrete runs *)

Section Runs.

#[local] Existing Instance Sample.kinds.

Import Sample.

Ltac member := vm_compute; repeat first [left; reflexivity | right].
Ltac decided :=
  vm_compute; repeat split; intros; try discriminate; try reflexivity.

(** The scenario of the document [foo.bar(1,2)]. *)
Example scenario_resolveTokenAt : getTokenAtPosition file 8 = one.
Proof. reflexivity. Qed.

Example scenario_precedingToken :
  findPrecedingToken 8 file = Return (Some open).
Proof. reflexivity. Qed.

Example scenario_nextToken : findNextToken open call = Return (Some one).
Proof. reflexivity. Qed.

(** The comma is a child of the list group as well: [2] is its third
    child. *)
Example scenario_listItemIndex :
  findListItemIndexContainingPosition args 10 = Return 2.
Proof. reflexivity. Qed.

Example scenario_leftOfCursor :
  findTokenOnLeftOfPosition file 5 = Return (Some bar)
  /\ findTokenOnLeftOfPosition file 4 = Return (Some dot).
Proof. split; reflexivity. Qed.

(** In leading trivia the two resolvers part. *)
Example resolvers_differ_in_trivia :
  getTokenAtPosition Spaced.file 5 = Spaced.two
  /\ getNodeAtPosition Spaced.file 5 = Spaced.args.
Proof. split; reflexivity. Qed.

Lemma getTokenAtPosition_full_span_witness :
  pos Spaced.two <= 5 < start Spaced.two
  /\ getTokenAtPosition Spaced.file 5 = Spaced.two.
Proof.
  split; [decided |].
  apply getTokenAtPosition_full_span; [reflexivity | member | reflexivity | decided].
Defined.

Lemma getTokenAtPosition_returns_token_witness :
  isToken (getTokenAtPosition file 8) = true
  /\ children (getTokenAtPosition file 8) = [].
Proof.
  apply getTokenAtPosition_returns_token;
    [reflexivity | apply gapFree_covered; reflexivity | decided].
Defined.

Lemma resolvers_agree_on_rendered_span_witness :
  getTokenAtPosition Spaced.file 6 = getNodeAtPosition Spaced.file 6
  /\ getNodeAtPosition Spaced.file 6 = Spaced.two.
Proof.
  apply (resolvers_agree_on_rendered_span Spaced.file Spaced.two 6);
    [reflexivity | member | reflexivity | decided].
Defined.

Lemma getTokenAtPosition_no_match_witness :
  end_ eof = pos eof
  /\ getTokenAtPosition file 12 = file
  /\ getTokenAtPosition file (-1) = file
  /\ isToken file = false.
Proof.
  split; [reflexivity |].
  split; [| split].
  - apply (getTokenAtPosition_no_match file 12); [reflexivity |].
    right. decided.
  - apply (getTokenAtPosition_no_match file (-1)); [reflexivity |].
    left. decided.
  - apply (getTokenAtPosition_no_match file 12); [reflexivity |].
    change (~ (1 <= 150 <= 100)). lia.
Defined.

Lemma findListItemIndexContainingPosition_full_span_witness :
  pos Spaced.two <= 5 < start Spaced.two
  /\ findListItemIndexContainingPosition Spaced.args 5 = Return 2.
Proof.
  split; [decided |].
  destruct (findListItemIndexContainingPosition_full_span (K := kinds)
              Spaced.args 5 eq_refl eq_refl) as (_ & _ & H).
  apply (H 2%nat Spaced.two); [reflexivity | decided | decided].
Defined.

(** On [f( 1, 2)] the offset of the blank before [2] lies in no child's
    rendered span, and yet the answer is the index of [2]. *)
Lemma listItemIndex_counts_leading_trivia :
  kind Spaced.args = SyntaxList
  /\ wellFormed Spaced.args = true
  /\ nth_error (children Spaced.args) 2 = Some Spaced.two
  /\ ~ (start Spaced.two <= 5 < end_ Spaced.two)
  /\ forallb (fun c => negb ((start c <=? 5) && (5 <? end_ c)))
       (children Spaced.args) = true
  /\ findListItemIndexContainingPosition Spaced.args 5 = Return 2.
Proof.
  repeat split; try reflexivity.
  change (~ (6 <= 5 < 7)). lia.
Qed.

Lemma findContainingList_outcomes_witness :
  (parent file = None
   /\ exists e, findContainingList parent file = Throw e)
  /\ (Adjacent.parent Adjacent.missing = Some Adjacent.container
      /\ findContainingList Adjacent.parent Adjacent.missing
         = Return (Some Adjacent.first)
      /\ exists l l1 l2,
           findContainingList Adjacent.parent Adjacent.missing
             = Return (Some l)
           /\ children Adjacent.container = l1 ++ l :: l2
           /\ forall a, In a l1 ->
                ~ (kind a = SyntaxList /\ pos a <= pos Adjacent.missing
                   /\ end_ Adjacent.missing <= end_ a)).
Proof.
  split.
  - split; [reflexivity |].
    destruct (findContainingList_outcomes (K := kinds) parent file)
      as (_ & _ & H).
    apply H. reflexivity.
  - split; [reflexivity |]. split; [reflexivity |].
    destruct (findContainingList_outcomes (K := kinds) Adjacent.parent
                Adjacent.missing) as (_ & H & _).
    destruct (H Adjacent.container eq_refl)
      as [(l & l1 & l2 & Hr & Heq & Hl1 & _) | [Hr _]]; [| discriminate Hr].
    exists l, l1, l2. split; [exact Hr |]. split; [exact Heq | exact Hl1].
Defined.

(** [foo] is parented by a property access none of whose children is a
    list group: the function returns [undefined] and throws nothing. *)
Lemma findContainingList_returns_undefined :
  parent foo = Some access
  /\ forallb (fun c => negb (kind c =? SyntaxList)) (children access) = true
  /\ findContainingList parent foo = Return None
  /\ ~ (exists e, findContainingList parent foo = Throw e).
Proof.
  repeat split; try reflexivity. intros [e He]. discriminate He.
Qed.

Lemma findListItemInfo_element_witness :
  findListItemInfo parent two = Return (ListItemInfo.mk 2 args)
  /\ pos Separated.missing = end_ Separated.missing
  /\ findListItemInfo Separated.parent Separated.missing
     = Return (ListItemInfo.mk 0 Separated.second).
Proof.
  split; [| split; [reflexivity |]].
  - apply (findListItemInfo_element (K := kinds) parent call args two 2);
      [reflexivity | member | reflexivity | reflexivity | reflexivity | |].
    + simpl. repeat constructor; simpl; intuition discriminate.
    + apply (no_list_before_covers (K := kinds) call args two);
        [reflexivity | member | reflexivity | left; decided].
  - apply (findListItemInfo_element (K := kinds) Separated.parent
             Separated.container Separated.second Separated.missing 0);
      [reflexivity | member | reflexivity | reflexivity | reflexivity | |].
    + simpl. repeat constructor; simpl; intuition discriminate.
    + intros l1 l2 a Heq Ha Hk Hp He.
      assert (Hin : In a (children Separated.container))
        by (rewrite Heq; apply in_or_app; left; exact Ha).
      destruct Hin as [<- | [<- | [<- | []]]].
      * exfalso. revert He. vm_compute. intro H. apply H. reflexivity.
      * discriminate Hk.
      * reflexivity.
Defined.

(** The empty missing element of the second list starts where the first
    list ends, which therefore covers its span and is found first. *)
Lemma findListItemInfo_adjacent_lists :
  wellFormed Adjacent.container = true
  /\ In Adjacent.second (children Adjacent.container)
  /\ kind Adjacent.second = SyntaxList
  /\ nth_error (children Adjacent.second) 0 = Some Adjacent.missing
  /\ Adjacent.parent Adjacent.missing = Some Adjacent.container
  /\ findListItemInfo Adjacent.parent Adjacent.missing
     = Return (ListItemInfo.mk (-1) Adjacent.first)
  /\ findListItemInfo Adjacent.parent Adjacent.missing
     <> Return (ListItemInfo.mk 0 Adjacent.second).
Proof.
  repeat split; try reflexivity.
  - right. left. reflexivity.
  - discriminate.
Qed.

Lemma findNextToken_sound_witness :
  wellFormed Separated.container = true
  /\ nodeHasTokens Separated.second = Return true
  /\ pos Separated.second = end_ Separated.second
  /\ exists r, findNextToken Separated.a Separated.container = Return r
               /\ r = Some Separated.paren.
Proof.
  split; [reflexivity |]. split; [reflexivity |]. split; [reflexivity |].
  destruct (findNextToken_sound (K := kinds) Separated.a Separated.container
              eq_refl) as (r & Hr & _ & _ & _ & _ & H).
  exists r. split; [exact Hr |].
  apply H; [reflexivity | left; member | member | reflexivity | decided |].
  apply (nothing_empty_before (K := kinds) Separated.a Separated.container
           Separated.paren eq_refl eq_refl).
  rewrite <- Forall_forall. vm_compute.
  repeat apply Forall_cons; try apply Forall_nil; intros H1 H2;
    try discriminate H1; try discriminate H2; reflexivity.
Defined.

(** In [var;] the semicolon starts where [var] ends, but the search
    commits to the declaration list, which starts there as well and
    holds no token. *)
Lemma findNextToken_misses_semicolon :
  wellFormed Recovery.statement = true
  /\ In Recovery.semicolon (descendants Recovery.statement)
  /\ isToken Recovery.semicolon = true
  /\ pos Recovery.semicolon = end_ Recovery.var
  /\ pos Recovery.semicolon < end_ Recovery.semicolon
  /\ findNextToken Recovery.var Recovery.statement = Return None.
Proof.
  repeat split; try reflexivity. member.
Qed.

Lemma findPrecedingToken_spec_witness :
  findPrecedingToken 13 Trailing.file = Return (Some close)
  /\ isToken close = true
  /\ (end_ close <= 13 \/ start close < 13 < end_ close)
  /\ tight Trailing.file = false
  /\ exists r, findPrecedingToken 13 Trailing.file = Return r
               /\ (r = None ->
                   forall u, In u (searchable Trailing.file) ->
                     ~ (start u < 13)).
Proof.
  split; [reflexivity |].
  destruct (findPrecedingToken_spec (K := kinds) 13 Trailing.file
              eq_refl eq_refl) as [H Htotal].
  destruct (H (Some close) eq_refl) as [H' _].
  destruct (H' close eq_refl) as (_ & _ & H1 & H2 & _).
  split; [exact H1 |]. split; [exact H2 |]. split; [reflexivity |].
  apply Htotal; [reflexivity |].
  intros c [<- | [<- | []]]; reflexivity.
Defined.

(** In [var;] with an empty declaration the candidate to the left of the
    semicolon is the declaration list, which holds no token: the answer
    at the end of [var] is absent, although [var] ends there. *)
Example findPrecedingToken_misses_var :
  wellFormed Recovery.statement = true
  /\ tight Recovery.statement = false
  /\ In Recovery.var (searchable Recovery.statement)
  /\ end_ Recovery.var <= 3
  /\ findPrecedingToken_find 3 Recovery.statement = Return None.
Proof.
  repeat split; try reflexivity; try (intro H; discriminate H).
  left. reflexivity.
Qed.

(** At an offset inside [foo] the answer is [foo], which ends after the
    offset, although no token of the tree ends at or before it. *)
Lemma findPrecedingToken_inside_token :
  wellFormed file = true
  /\ findPrecedingToken 1 file = Return (Some foo)
  /\ 1 < end_ foo
  /\ forallb (fun u => negb (isToken u) || (1 <? end_ u)) (descendants file)
     = true.
Proof. repeat split; reflexivity. Qed.



(** ** Runs for the further properties *)

Ltac each :=
  rewrite <- Forall_forall; vm_compute;
  repeat apply Forall_cons; try apply Forall_nil.

Lemma getTokenAtPosition_below_node_witness :
  getNodeAtPosition Spaced.file 5 = Spaced.args
  /\ getTokenAtPosition Spaced.args 5 = getTokenAtPosition Spaced.file 5
  /\ In (getTokenAtPosition Spaced.file 5) (descendants Spaced.args).
Proof.
  split; [reflexivity |].
  apply (getTokenAtPosition_below_node (K := kinds) Spaced.file 5).
  reflexivity.
Defined.

Lemma findListItemIndexContainingPosition_outcomes_witness :
  findListItemIndexContainingPosition call 3 = Throw AssertionFailure.
Proof.
  apply (findListItemIndexContainingPosition_outcomes (K := kinds) call 3).
  change (126 <> 152). lia.
Defined.

Lemma findListItemInfo_outcomes_witness :
  findListItemInfo parent foo = Throw TypeError
  /\ (parent foo = None
      \/ exists P, parent foo = Some P
           /\ forall c, In c (children P) ->
                ~ (kind c = SyntaxList /\ pos c <= pos foo
                   /\ end_ foo <= end_ c)).
Proof.
  split; [reflexivity |].
  pose proof (findListItemInfo_outcomes (K := kinds) parent foo) as H.
  change (findListItemInfo parent foo) with (@Throw ListItemInfo.t TypeError) in H.
  exact (proj2 H).
Defined.

Lemma nodeHasTokens_outcomes_witness :
  typed statement = true /\ exists b, nodeHasTokens statement = Return b.
Proof.
  split; [reflexivity |].
  apply (nodeHasTokens_outcomes (K := kinds) statement). reflexivity.
Defined.

Lemma findRightmostChildNodeWithTokens_outcomes_witness :
  exists r,
    findRightmostChildNodeWithTokens ([access; open] ++ [args; close])
      (length [access; open]) = Return r
    /\ forall post',
         findRightmostChildNodeWithTokens ([access; open] ++ post')
           (length [access; open]) = Return r.
Proof.
  destruct (findRightmostChildNodeWithTokens_outcomes (K := kinds)
              [access; open] [args; close]) as [(r & Hr & _ & Hpost) _].
  - intros c [<- | [<- | []]]; reflexivity.
  - exists r. split; [exact Hr | exact Hpost].
Defined.

Lemma findRightmostToken_outcomes_witness :
  wellFormed call = true /\ tight call = true
  /\ exists t, findRightmostToken call = Return (Some t).
Proof.
  split; [reflexivity |]. split; [reflexivity |].
  apply (findRightmostToken_outcomes (K := kinds) call);
    [reflexivity | reflexivity | right; reflexivity].
Defined.

Lemma findPrecedingToken_inside_witness :
  start foo < 1 < end_ foo /\ findPrecedingToken 1 file = Return (Some foo).
Proof.
  split; [decided |].
  apply (findPrecedingToken_inside (K := kinds) 1 file foo);
    [reflexivity | member | decided].
Defined.

Lemma findPrecedingToken_asserts_source_file_witness :
  end_ call <= 12 /\ findPrecedingToken 12 call = Throw AssertionFailure.
Proof.
  split; [decided |].
  apply (findPrecedingToken_asserts_source_file (K := kinds) 12 call);
    [reflexivity | reflexivity | change (126 <> 150); lia | right; decided].
Defined.

Lemma findPrecedingToken_tokenless_file_witness :
  findPrecedingToken 0 Empty.file = Return None.
Proof.
  apply (findPrecedingToken_tokenless_file (K := kinds) 0 Empty.file);
    [reflexivity | reflexivity |].
  intros c [<- | []]. reflexivity.
Defined.

Lemma findPrecedingToken_past_end_witness :
  end_ file <= 20 /\ findPrecedingToken 20 file = findRightmostToken file.
Proof.
  split; [decided |].
  apply (findPrecedingToken_past_end (K := kinds) 20 file);
    [reflexivity | reflexivity | reflexivity | decided].
Defined.

Lemma sample_tokens_wide :
  forall u, In u (searchable file) -> start u < end_ u.
Proof. each; reflexivity. Defined.

Lemma findPrecedingToken_greatest_start_witness :
  start open < 8 /\ findPrecedingToken 8 file = Return (Some open).
Proof.
  split; [decided |].
  apply (findPrecedingToken_greatest_start (K := kinds) 8 file open);
    [reflexivity | reflexivity | reflexivity | reflexivity
    | exact sample_tokens_wide | member | decided |].
  each; intros H; try discriminate H; intros H'; discriminate H'.
Defined.

Lemma token_at_right_boundary_witness :
  findPrecedingToken (end_ comma) file = Return (Some comma)
  /\ findTokenOnLeftOfPosition file (end_ comma) = Return (Some comma).
Proof.
  apply (token_at_right_boundary (K := kinds) file comma);
    [reflexivity | reflexivity | reflexivity | reflexivity
    | exact sample_tokens_wide | member].
Defined.

Lemma findTokenOnLeftOfPosition_inside_witness :
  start bar < 5 < end_ bar
  /\ findTokenOnLeftOfPosition file 5 = Return (Some bar).
Proof.
  split; [decided |].
  apply (findTokenOnLeftOfPosition_inside (K := kinds) file bar 5);
    [reflexivity | member | reflexivity | decided].
Defined.

Lemma findTokenOnLeftOfPosition_sound_witness :
  In dot (descendants file) /\ isToken dot = true
  /\ (end_ dot <= 4 \/ start dot < 4 < end_ dot).
Proof.
  apply (findTokenOnLeftOfPosition_sound (K := kinds) file dot 4);
    reflexivity.
Defined.

Lemma findTokenOnLeftOfPosition_is_findPrecedingToken_witness :
  findTokenOnLeftOfPosition file 5 = findPrecedingToken 5 file.
Proof.
  apply (findTokenOnLeftOfPosition_is_findPrecedingToken (K := kinds) file 5);
    [reflexivity |].
  each; intros Htok [H1 H2]; try discriminate Htok; try discriminate H1;
    try discriminate H2; repeat first [left; reflexivity | right].
Defined.

Lemma findPrecedingToken_of_findNextToken_witness :
  findNextToken open file = Return (Some one)
  /\ findPrecedingToken (pos one) file = Return (Some open).
Proof.
  split; [reflexivity |].
  apply (findPrecedingToken_of_findNextToken (K := kinds) file open one);
    [reflexivity | reflexivity | reflexivity | reflexivity
    | exact sample_tokens_wide | member | reflexivity].
Defined.

Lemma findPrecedingToken_before_first_witness :
  findPrecedingToken 0 file = Return None.
Proof.
  apply (findPrecedingToken_before_first (K := kinds) 0 file);
    [reflexivity | reflexivity | reflexivity | reflexivity
    | exact sample_tokens_wide |].
  each; intros H; discriminate H.
Defined.

End Runs.
